(** * Lenia engine: kernels, growth functions, board and the update step

    A shallow embedding of [Kernel.py], [Growth_fn.py], [Board.py] and
    [Automaton.py].

    Numbers.  A numpy [float64] is modelled by [np_float]: a finite value is an
    exact rational kept in lowest terms by every operation, and the two
    infinities and NaN are values of their own, produced by the same
    operations that produce them in IEEE arithmetic (division by zero,
    [inf - inf], [0 * inf]).  Rounding and the sign of zero are not modelled.
    Integer and boolean arrays are embedded as finite values with integer
    content.  The smooth ring kernel needs [sqrt] and [exp]; it is modelled
    over the real numbers in the module [SmoothRing]. *)

From Stdlib Require Import ZArith QArith Qreduction Reals Lra Lia Psatz String Ascii Bool DecimalString.
From stdpp Require Import base list gmap strings.

(** ** Floating-point values *)

Inductive np_float : Type :=
  | Fin (q : Q)
  | Inf (negative : bool)
  | NaN.

Definition fin (q : Q) : np_float := Fin (Qred q).
Definition of_Z (z : Z) : np_float := Fin (inject_Z z).
Definition of_bool (b : bool) : np_float := of_Z (Z.b2z b).

Definition Qis_zero (q : Q) : bool := Qeq_bool q 0.
Definition Qis_neg (q : Q) : bool := negb (Qle_bool 0 q).

Definition f_neg (x : np_float) : np_float :=
  match x with
  | Fin q => fin (- q)
  | Inf s => Inf (negb s)
  | NaN => NaN
  end.

Definition f_add (x y : np_float) : np_float :=
  match x, y with
  | Fin a, Fin b => fin (a + b)
  | Fin _, Inf s => Inf s
  | Inf s, Fin _ => Inf s
  | Inf s, Inf t => if eqb s t then Inf s else NaN
  | _, _ => NaN
  end.

Definition f_sub (x y : np_float) : np_float := f_add x (f_neg y).

Definition f_mul (x y : np_float) : np_float :=
  match x, y with
  | Fin a, Fin b => fin (a * b)
  | Fin a, Inf s => if Qis_zero a then NaN else Inf (xorb s (Qis_neg a))
  | Inf s, Fin a => if Qis_zero a then NaN else Inf (xorb s (Qis_neg a))
  | Inf s, Inf t => Inf (xorb s t)
  | _, _ => NaN
  end.

(** [x / y]; a zero divisor gives an infinity, or NaN for [0 / 0]. *)
Definition f_div (x y : np_float) : np_float :=
  match x, y with
  | Fin a, Fin b =>
      if Qis_zero b then (if Qis_zero a then NaN else Inf (Qis_neg a))
      else fin (a / b)
  | Fin _, Inf _ => Fin 0
  | Inf s, Fin b => Inf (xorb s (Qis_neg b))
  | _, _ => NaN
  end.

(** [x ** 2] *)
Definition f_sq (x : np_float) : np_float := f_mul x x.

Definition f_le (x y : np_float) : bool :=
  match x, y with
  | Fin a, Fin b => Qle_bool a b
  | Fin _, Inf s => negb s
  | Inf s, Fin _ => s
  | Inf s, Inf t => s || negb t
  | _, _ => false
  end.

Definition f_lt (x y : np_float) : bool :=
  match x, y with
  | Fin a, Fin b => negb (Qle_bool b a)
  | Fin _, Inf s => negb s
  | Inf s, Fin _ => s
  | Inf s, Inf t => s && negb t
  | _, _ => false
  end.

Definition f_ge (x y : np_float) : bool := f_le y x.
Definition f_gt (x y : np_float) : bool := f_lt y x.

Definition f_eqb (x y : np_float) : bool :=
  match x, y with
  | Fin a, Fin b => Qeq_bool a b
  | Inf s, Inf t => eqb s t
  | _, _ => false
  end.

(** [np.maximum] and [np.minimum] propagate NaN. *)
Definition np_maximum (x y : np_float) : np_float :=
  match x, y with
  | NaN, _ | _, NaN => NaN
  | _, _ => if f_le x y then y else x
  end.

Definition np_minimum (x y : np_float) : np_float :=
  match x, y with
  | NaN, _ | _, NaN => NaN
  | _, _ => if f_le x y then x else y
  end.

(** [np.clip(x, lo, hi)] on one element *)
Definition clip (x lo hi : np_float) : np_float :=
  np_minimum (np_maximum x lo) hi.

Definition is_finite (x : np_float) : Prop :=
  match x with Fin _ => True | _ => False end.

Definition qval (x : np_float) : Q :=
  match x with Fin q => q | _ => 0%Q end.

(** [0 <= x <= 1] for a finite [x] *)
Definition in_unit (x : np_float) : Prop :=
  match x with Fin q => (0 <= q /\ q <= 1)%Q | _ => False end.

(** ** Two-dimensional arrays *)

Abbreviation matrix := (list (list np_float)).

Definition rect (H W : nat) (m : matrix) : Prop :=
  length m = H /\ Forall (fun r => length r = W) m.

Definition all_cells (P : np_float -> Prop) (m : matrix) : Prop :=
  Forall (Forall P) m.

Definition rows (m : matrix) : nat := length m.
Definition cols (m : matrix) : nat := length (hd [] m).

(** [m[i, j]]; the model only reads inside the array, NaN marks a read
    outside. *)
Definition cell (m : matrix) (i j : nat) : np_float :=
  default NaN (m !! i ≫= fun r => r !! j).

Definition np_full (n m : nat) (x : np_float) : matrix :=
  replicate n (replicate m x).

Definition np_map (f : np_float -> np_float) (a : matrix) : matrix :=
  (fun r : list np_float => f <$> r) <$> a.

Definition np_map2 (f : np_float -> np_float -> np_float) (a b : matrix) : matrix :=
  zip_with (zip_with f) a b.

(** array + array, array - array, scalar * array, array / scalar *)
Definition np_add (a b : matrix) : matrix := np_map2 f_add a b.
Definition np_subtract (a b : matrix) : matrix := np_map2 f_sub a b.
Definition np_scale (c : np_float) (a : matrix) : matrix := np_map (f_mul c) a.
Definition np_divide (a : matrix) (c : np_float) : matrix :=
  np_map (fun x => f_div x c) a.

Definition np_clip (a : matrix) (lo hi : np_float) : matrix :=
  np_map (fun x => clip x lo hi) a.

Definition f_sum (l : list np_float) : np_float := foldl f_add (Fin 0) l.

(** [np.sum] over every entry *)
Definition np_sum (a : matrix) : np_float := f_sum (concat a).

(** [np.pad(a, p)] for [p >= 0]: [p] rows and columns of zeros on every
    side. *)
Definition pad_zeros (a : matrix) (p : nat) : matrix :=
  let w := (p + cols a + p)%nat in
  replicate p (replicate w (Fin 0))
  ++ fmap (fun r => replicate p (Fin 0) ++ r ++ replicate p (Fin 0)) a
  ++ replicate p (replicate w (Fin 0)).

(** *** [scipy.signal.convolve2d(a, k, mode='same', boundary='wrap')]

    The output has the shape of [a].  Entry [(i, j)] sums, over the kernel
    in row-major order, [k[m, n] * a[i + (kh-1)//2 - m, j + (kw-1)//2 - n]]
    with both indices of [a] taken modulo its shape. *)
Definition wrap_index (i : Z) (n : nat) : nat :=
  Z.to_nat (i mod Z.of_nat n).

Definition conv_terms (a k : matrix) (i j : nat) : list np_float :=
  let kh := rows k in
  let kw := cols k in
  m ← seq 0 kh;
  n ← seq 0 kw;
  [f_mul (cell k m n)
         (cell a
            (wrap_index (Z.of_nat i + Z.of_nat ((kh - 1) / 2) - Z.of_nat m) (rows a))
            (wrap_index (Z.of_nat j + Z.of_nat ((kw - 1) / 2) - Z.of_nat n) (cols a)))].

Definition conv_at (a k : matrix) (i j : nat) : np_float :=
  f_sum (conv_terms a k i j).

Definition convolve2d_same_wrap (a k : matrix) : matrix :=
  (fun i => (fun j => conv_at a k i j) <$> seq 0 (cols a)) <$> seq 0 (rows a).

(** ** Python control flow: printed lines, return values and exceptions *)

Inductive exn : Type := Exn (name : string).

Definition ValueError : exn := Exn "ValueError".
Definition AttributeError : exn := Exn "AttributeError".
Definition KeyError : exn := Exn "KeyError".
Definition TypeError : exn := Exn "TypeError".

Record py (A : Type) : Type := Py { stdout : list string; outcome : exn + A }.
Arguments Py {A} _ _.
Arguments stdout {A} _.
Arguments outcome {A} _.

#[global] Instance py_ret : MRet py := fun A x => Py [] (inr x).

#[global] Instance py_bind : MBind py := fun A B f m =>
  match outcome m with
  | inl e => Py (stdout m) (inl e)
  | inr x => Py (stdout m ++ stdout (f x)) (outcome (f x))
  end.

Definition raise {A : Type} (e : exn) : py A := Py [] (inl e).
Definition print (line : string) : py unit := Py [line] (inr tt).

Definition returns {A : Type} (m : py A) (v : A) : Prop := outcome m = inr v.
Definition raises {A : Type} (m : py A) (e : exn) : Prop := outcome m = inl e.

(** ['{}'.format(z)] for an integer *)
Definition format_int (z : Z) : string := NilZero.string_of_int (Z.to_int z).

(** [np.ones([n, m])]; a negative dimension is a [ValueError]. *)
Definition np_ones (n m : Z) : py matrix :=
  if ((n <? 0) || (m <? 0))%Z then raise ValueError
  else mret (np_full (Z.to_nat n) (Z.to_nat m) (Fin 1)).

(** [np.pad(a, p)]; a negative width is a [ValueError]. *)
Definition np_pad (a : matrix) (p : Z) : py matrix :=
  if (p <? 0)%Z then raise ValueError else mret (pad_zeros a (Z.to_nat p)).

(** [np.random.seed(seed)]: [None] seeds from the system; an integer has to
    lie between 0 and [2**32 - 1], any other is a [ValueError]. *)
Definition np_random_seed (seed : option Z) : py unit :=
  match seed with
  | None => mret tt
  | Some s =>
      if ((0 <=? s) && (s <? 2 ^ 32))%Z then mret tt else raise ValueError
  end.

(** ** Kernel.py *)

Module Kernel.

(** The guard shared by [square_kernel] and [ring_kernel]:
    [(outer % 2 == 0) and (inner % 2 == 0) or (outer % 2 == 1) and (inner % 2 == 1)] *)
Definition both_even_or_both_odd (outer_diameter inner_diameter : Z) : bool :=
  ((outer_diameter mod 2 =? 0) && (inner_diameter mod 2 =? 0)
   || (outer_diameter mod 2 =? 1) && (inner_diameter mod 2 =? 1))%Z.

Definition symmetry_message : string :=
  "ERROR: Use both odd or both even dimensions to ensure kernel symmetry".

Definition diameter_message (outer_diameter inner_diameter : Z) : string :=
  "ERROR: Outer diameter (= " ++ format_int outer_diameter
    ++ ") must be greater than inner (= " ++ format_int inner_diameter ++ ")".

Definition square_kernel (outer_diameter inner_diameter : Z) : py (option matrix) :=
  if negb (both_even_or_both_odd outer_diameter inner_diameter) then
    print symmetry_message;; mret None
  else if (outer_diameter <=? inner_diameter)%Z then
    print (diameter_message outer_diameter inner_diameter);; mret None
  else
    ones ← np_ones inner_diameter inner_diameter;
    inner ← np_pad ones ((outer_diameter - inner_diameter) / 2)%Z;
    outer ← np_ones outer_diameter outer_diameter;
    mret (Some (np_subtract outer inner)).

(** [norm([i - mid, j - mid]) - diameter/2 <= 0], decided on the squares:
    both the norm and [diameter/2] are non-negative here. *)
Definition within_radius (diameter : Z) (i j : nat) : bool :=
  let mid := ((inject_Z diameter - 1) / 2)%Q in
  let di := (inject_Z (Z.of_nat i) - mid)%Q in
  let dj := (inject_Z (Z.of_nat j) - mid)%Q in
  let r := (inject_Z diameter / 2)%Q in
  Qle_bool (di * di + dj * dj) (r * r).

(** [np.logical_not(x).astype(int)] on one entry *)
Definition logical_not (x : np_float) : np_float := of_bool (f_eqb x (Fin 0)).

(** [np.indices((d, d))] raises [ValueError] for a negative [d]. *)
Definition circular_kernel (diameter : Z) (invert : bool) : py matrix :=
  if (diameter <? 0)%Z then raise ValueError
  else
    let n := Z.to_nat diameter in
    let kernel : matrix :=
      (fun i => (fun j => of_bool (within_radius diameter i j)) <$> seq 0 n)
        <$> seq 0 n in
    if invert then mret (np_map logical_not kernel) else mret kernel.

Definition ring_kernel (outer_diameter inner_diameter : Z) : py (option matrix) :=
  if negb (both_even_or_both_odd outer_diameter inner_diameter) then
    print symmetry_message;; mret None
  else
    disc ← circular_kernel inner_diameter false;
    inner ← np_pad disc ((outer_diameter - inner_diameter) / 2)%Z;
    outer ← circular_kernel outer_diameter false;
    mret (Some (np_subtract outer inner)).

End Kernel.

(** ** Growth_fn.py *)

Module Growth_fn.

Record t : Type := {
  b1 : np_float; b2 : np_float; s1 : np_float; s2 : np_float;
  mu : np_float; sigma : np_float;
  type : string
}.

(** [Growth_fn.__init__] *)
Definition init : t := {|
  b1 := f_mul (of_Z 2) (Fin (1 # 8));
  b2 := f_mul (of_Z 4) (Fin (1 # 8));
  s1 := f_mul (of_Z 3) (Fin (1 # 8));
  s2 := f_mul (of_Z 4) (Fin (1 # 8));
  mu := Fin (135 # 1000);
  sigma := Fin (15 # 1000);
  type := "gaussian"
|}.

(** [0 + (U==3) - ((U<2)|(U>3))] *)
Definition growth_conway (self : t) (U : np_float) : np_float :=
  f_sub (f_add (of_Z 0) (of_bool (f_eqb U (of_Z 3))))
        (of_bool (f_lt U (of_Z 2) || f_gt U (of_Z 3))).

(** [0 + ((U>=self.b1)&(U<self.b2)) - ((U<self.s1)|(U>=self.s2))] *)
Definition growth_bosco (self : t) (U : np_float) : np_float :=
  f_sub (f_add (of_Z 0) (of_bool (f_ge U (b1 self) && f_lt U (b2 self))))
        (of_bool (f_lt U (s1 self) || f_ge U (s2 self))).

Section Gaussian.
(** [np.exp] is not a rational function; the model takes it as given. *)
Variable np_exp : np_float -> np_float.

Definition gaussian (x m s : np_float) : np_float :=
  np_exp (f_neg (f_div (f_sq (f_sub x m)) (f_mul (of_Z 2) (f_sq s)))).

Definition growth_gaussian (self : t) (U : np_float) : np_float :=
  f_sub (f_mul (gaussian U (mu self) (sigma self)) (of_Z 2)) (of_Z 1).
End Gaussian.

End Growth_fn.

(** ** Board.py *)

Module Board.

Record t : Type := {
  grid_size : nat;
  density : np_float;
  initialisation_type : string;
  pad : nat;
  seed : option Z;
  board : matrix
}.

Definition set_board (self : t) (b : matrix) : t := {|
  grid_size := grid_size self; density := density self;
  initialisation_type := initialisation_type self; pad := pad self;
  seed := seed self; board := b
|}.

Section Init.
(** Arrays that come from the random generator, once
    [np.random.seed(seed)] has accepted the seed, or from [sqrt] and [exp]
    are inputs of the model:
    - [np_random_rand seed n m] is [np.random.rand(n, m)];
    - [scipy_sparse_random seed n m density] is
      [scipy.sparse.random(n, m, density=density).A];
    - [ogrid_norm R] is
      [np.linalg.norm(np.asarray(np.ogrid[-R:R-1, -R:R-1]) + 1)];
    - [smooth_ring_32] is [Kernel().smooth_ring_kernel(32)]. *)
Variable np_random_rand : option Z -> nat -> nat -> matrix.
Variable scipy_sparse_random : option Z -> nat -> nat -> np_float -> matrix.
Variable ogrid_norm : np_float -> matrix.
Variable smooth_ring_32 : matrix.

Definition intialise_board (self : t) : py (t * matrix) :=
  let n := grid_size self in
  let ty := initialisation_type self in
  np_random_seed (seed self);;
  initial ←
    (if String.eqb ty "zeros" then mret (np_full n n (Fin 0))
     else if String.eqb ty "ones" then mret (np_full n n (Fin 1))
     else if String.eqb ty "random" then mret (np_random_rand (seed self) n n)
     else if String.eqb ty "sparse" then
       mret (scipy_sparse_random (seed self) n n (density self))
     else if String.eqb ty "gaussian" then
       let R := f_div (of_Z (Z.of_nat n)) (of_Z 2) in
       mret (np_divide (ogrid_norm R) R)
     else if String.eqb ty "ring" then mret smooth_ring_32
     else raise AttributeError);
  let padded :=
    if (pad self =? 0)%nat then initial
    else pad_zeros initial (pad self) in
  mret (set_board self padded, padded).

(** [Board.__init__] *)
Definition init (grid_size : nat) (seed : option Z) : py t :=
  let self := {|
    grid_size := grid_size;
    density := Fin (1 # 2);
    initialisation_type := "sparse";
    pad := 32;
    seed := seed;
    board := []
  |} in
  r ← intialise_board self;
  mret (set_board (fst r) (snd r)).
End Init.

End Board.

(** The truth value numpy gives a number in [np.logical_and] and
    [np.logical_or]: every value but zero is true, NaN included. *)
Definition truthy (x : np_float) : bool :=
  match x with
  | Fin q => negb (Qis_zero q)
  | _ => true
  end.

(** ** Automaton.py *)

Module Automaton.

(** An [Automaton] extends [Growth_fn]: [params] holds the inherited
    attributes; [growth] is the bound method chosen in [__init__], absent
    when the type tag is neither ['gaussian'] nor ['bosco']. *)
Record t : Type := {
  cmap : string;
  dT : np_float;
  kernel : matrix;
  norm_factor : np_float;
  params : Growth_fn.t;
  growth : option (Growth_fn.t -> np_float -> np_float);
  board : matrix;
  board_shape : nat * nat
}.

Definition set_kernel (self : t) (k : matrix) (nf : np_float) : t := {|
  cmap := cmap self; dT := dT self; kernel := k; norm_factor := nf;
  params := params self; growth := growth self; board := board self;
  board_shape := board_shape self
|}.

Definition set_board (self : t) (b : matrix) : t := {|
  cmap := cmap self; dT := dT self; kernel := kernel self;
  norm_factor := norm_factor self; params := params self;
  growth := growth self; board := b; board_shape := board_shape self
|}.

(** [kernel_norm = self.kernel / (1*np.sum(self.kernel))];
    [self.norm_factor = 1 / (1*np.sum(self.kernel))].
    numpy divides by zero without raising: the quotients are infinite or
    NaN. *)
Definition normalise_kernel (self : t) : py (t * matrix) :=
  let kernel_norm :=
    np_divide (kernel self) (f_mul (of_Z 1) (np_sum (kernel self))) in
  let nf := f_div (of_Z 1) (f_mul (of_Z 1) (np_sum (kernel self))) in
  mret (set_kernel self kernel_norm nf, kernel_norm).

(** [neighbours = convolve2d(self.board, self.kernel, mode='same', boundary='wrap')];
    [self.board = np.clip(self.board + self.dT * self.growth(neighbours), 0, 1)] *)
Definition update_convolutional (self : t) : py (t * matrix) :=
  let neighbours := convolve2d_same_wrap (board self) (kernel self) in
  match growth self with
  | None => raise AttributeError
  | Some g =>
      let new_board :=
        np_clip
          (np_add (board self)
                  (np_scale (dT self) (np_map (g (params self)) neighbours)))
          (of_Z 0) (of_Z 1) in
      mret (set_board self new_board, new_board)
  end.

(** [r1 = (neighbours == 3)];
    [r2 = np.logical_and(self.board, (neighbours == 2))];
    [r3 = np.logical_or(r1, r2).astype(int)],
    for [neighbours] of the shape of the board.  The board is only read. *)
Definition update_rule_default (self : t) (neighbours : matrix) : matrix :=
  let r1 := np_map (fun n => of_bool (f_eqb n (of_Z 3))) neighbours in
  let r2 :=
    np_map2 (fun b n => of_bool (truthy b && f_eqb n (of_Z 2)))
            (board self) neighbours in
  np_map2 (fun x y => of_bool (truthy x || truthy y)) r1 r2.

(** [self.update_convolutional()]; [self.img.set_array(self.board)];
    [return self.img,].  The second component is the array the image
    shows; the frame number is not used. *)
Definition animate_step (self : t) (i : Z) : py (t * matrix) :=
  r ← update_convolutional self;
  mret (fst r, board (fst r)).

Section Init.
Variable np_exp : np_float -> np_float.

(** [Automaton.__init__]; the figure made by [show_board] is not part
    of the model. *)
Definition init (b : Board.t) (k : matrix) (growth_fn : Growth_fn.t)
    (dt : np_float) (colours : string) : py t :=
  let self := {|
    cmap := colours; dT := dt; kernel := k; norm_factor := NaN;
    params := growth_fn; growth := None; board := []; board_shape := (0, 0)%nat
  |} in
  r ← normalise_kernel self;
  let self := fst r in
  let ty := Growth_fn.type growth_fn in
  let g :=
    if String.eqb ty "gaussian" then Some (Growth_fn.growth_gaussian np_exp)
    else if String.eqb ty "bosco" then Some Growth_fn.growth_bosco
    else None in
  mret {| cmap := cmap self; dT := dT self; kernel := kernel self;
          norm_factor := norm_factor self; params := growth_fn; growth := g;
          board := Board.board b;
          board_shape := (rows (Board.board b), cols (Board.board b)) |}.
End Init.

End Automaton.

(** ** The smooth ring kernel, over the real numbers *)

Module SmoothRing.

Local Open Scope R_scope.

Abbreviation rmatrix := (list (list R)).

(** [np.ogrid[start:stop]] is [arange(start, stop)]: the [n] points
    [start + t], where [n] is [ceil(stop - start)], or 0 when that is
    negative. *)
Definition arange (start : R) (n : nat) : list R :=
  (fun t => start + INR t) <$> seq 0 n.

(** [np.exp(-( ((x-m)**2) / (2*(s**2)) ))] for [s <> 0].  At [s = 0] numpy
    divides by zero and gives 0 or NaN, which a real number does not
    express: what is stated of the values assumes [s <> 0]. *)
Definition gaussian (x m s : R) : R := exp (- ((x - m) ^ 2 / (2 * s ^ 2))).

(** The boolean [(D < 1)] as the factor 1 or 0 *)
Definition lt_one (D : R) : R := if Rlt_dec D 1 then 1 else 0.

(** [R = (diameter / 2) + 1]; [np.ogrid[-R:R-1]] has
    [ceil((R - 1) - (-R)) = diameter + 1] points on each axis;
    [np.linalg.norm] of the pair of shifted axes is the entrywise
    [sqrt(y*y + x*x)]. *)
Definition smooth_ring_kernel (diameter : Z) (mu sigma : R) : rmatrix :=
  let radius := IZR diameter / 2 + 1 in
  let axis := arange (- radius) (Z.to_nat (diameter + 1)) in
  (fun y =>
     (fun x =>
        let D := sqrt ((y + 1) * (y + 1) + (x + 1) * (x + 1)) / radius in
        lt_one D * gaussian D mu sigma) <$> axis) <$> axis.

(** The Euclidean distance of cell [(i, j)] from the centre
    [(diameter/2, diameter/2)] of the array of side [diameter + 1]. *)
Definition centre_distance (diameter : Z) (i j : nat) : R :=
  sqrt ((INR i - IZR diameter / 2) ^ 2 + (INR j - IZR diameter / 2) ^ 2).

(** [K[a, b]], when inside the array *)
Definition entry (K : rmatrix) (a b : nat) : option R :=
  match K !! a with
  | Some row => row !! b
  | None => None
  end.



End SmoothRing.

(** ** The Gaussian growth function, over the real numbers *)

Module RealGrowth.

Local Open Scope R_scope.

(** [np.exp(-( ((x-m)**2) / (2*(s**2)) ))] for [s <> 0]; at [s = 0] numpy
    divides by zero and gives 0 or NaN.  Over the real numbers [exp] is
    never 0; in floating point it underflows to 0 far from [m]. *)
Definition gaussian (x m s : R) : R := exp (- ((x - m) ^ 2 / (2 * s ^ 2))).

(** [gaussian(U, self.mu, self.sigma)*2-1] *)
Definition growth_gaussian (mu sigma U : R) : R := gaussian U mu sigma * 2 - 1.

End RealGrowth.

(** ** Lenia.py: validation of the command-line arguments *)

Module Lenia.

(** The values an argument dictionary holds: [None], a flag, a number, a
    string, or a list (of strings from the command line, of numbers once
    converted). *)
#[warnings="-register-all"]
Inductive value : Type :=
  | VNone
  | VBool (b : bool)
  | VNum (x : np_float)
  | VStr (s : string)
  | VList (l : list value).

Abbreviation dict := (gmap string value).

Definition NUMERIC_ARGS : list string :=
  ["board_size"; "kernel_size"; "dt"; "frames"; "sigma"; "mu"; "seed"].

(** What [validate_args] returns: [-1], or the dictionary it was given.
    The dictionary is updated in place; [ReturnedMinusOne] records the state
    it is left in. *)
Inductive validated : Type :=
  | ReturnedMinusOne (left_as : dict)
  | ReturnedArgs (args : dict).

(** [args[key]] *)
Definition getitem (args : dict) (key : string) : py value :=
  match args !! key with
  | Some v => mret v
  | None => raise KeyError
  end.

(** [v != None] *)
Definition not_None (v : value) : bool :=
  match v with VNone => false | _ => true end.

(** [arg.replace('_','-')] *)
Fixpoint dashed (s : string) : string :=
  match s with
  | EmptyString => EmptyString
  | String c rest =>
      String (if Ascii.eqb c "_"%char then "-"%char else c) (dashed rest)
  end.

Definition exn_eqb (e1 e2 : exn) : bool :=
  match e1, e2 with Exn n1, Exn n2 => String.eqb n1 n2 end.

Section Validate.

(** [float(s)] for a string: the number it denotes, or [None] where Python
    raises [ValueError]. *)
Variable float_of_str : string -> option np_float.

(** [float(v)] *)
Definition py_float (v : value) : py np_float :=
  match v with
  | VNum x => mret x
  | VBool b => mret (of_bool b)
  | VStr s =>
      match float_of_str s with
      | Some x => mret x
      | None => raise ValueError
      end
  | VNone | VList _ => raise TypeError
  end.

(** The items of [for i in v]: a list gives its elements, a string its
    characters; nothing else here is iterable. *)
Fixpoint characters (s : string) : list value :=
  match s with
  | EmptyString => []
  | String c rest => VStr (String c EmptyString) :: characters rest
  end.

Definition py_iter (v : value) : py (list value) :=
  match v with
  | VList l => mret l
  | VStr s => mret (characters s)
  | _ => raise TypeError
  end.

(** The loop [for arg in NUMERIC_ARGS], from [names] on: [inl] when the
    function has returned [-1], [inr] when the loop has run to its end. *)
Fixpoint check_numeric (names : list string) (args : dict) : py (dict + dict) :=
  match names with
  | [] => mret (inr args)
  | arg :: rest =>
      v ← getitem args arg;
      if not_None v then
        match outcome (py_float v) with
        | inr x =>
            let args := <[arg := VNum x]> args in
            if f_lt x (of_Z 0) then
              print ("ERROR: --" +:+ dashed arg +:+ " must be greater then zero");;
              mret (inl args)
            else check_numeric rest args
        | inl e =>
            if exn_eqb e ValueError then
              print ("ERROR: --" +:+ dashed arg +:+ " must be a numeric value");;
              mret (inl args)
            else raise e
        end
      else check_numeric rest args
  end.

(** [[float(i) for i in items]] *)
Fixpoint floats (items : list value) : py (list np_float) :=
  match items with
  | [] => mret []
  | i :: rest => x ← py_float i; xs ← floats rest; mret (x :: xs)
  end.

(** The second half of [validate_args], on [args['kernel_peaks']] *)
Definition check_peaks (args : dict) : py validated :=
  v ← getitem args "kernel_peaks";
  if not_None v then
    items ← py_iter v;
    match outcome (floats items) with
    | inr xs =>
        let args := <["kernel_peaks" := VList (VNum <$> xs)]> args in
        if existsb (fun i => f_lt i (of_Z 0) || f_gt i (of_Z 1)) xs then
          print "ERROR: --kernel-peaks must be between 0 and 1";;
          mret (ReturnedMinusOne args)
        else mret (ReturnedArgs args)
    | inl e =>
        if exn_eqb e ValueError then
          print "ERROR: --kernel-peaks must be a numeric";;
          mret (ReturnedMinusOne args)
        else raise e
    end
  else mret (ReturnedArgs args).

Definition validate_args (args : dict) : py validated :=
  r ← check_numeric NUMERIC_ARGS args;
  match r with
  | inl args => mret (ReturnedMinusOne args)
  | inr args => check_peaks args
  end.

End Validate.

End Lenia.

(** * Vocabulary of the statements *)

(** The neighbourhood sum at [(i, j)] written out for a board of shape
    [(H, W)]: the kernel entries in row-major order, each times the board
    entry at the wrapped position. *)
Definition wrapped_sum (b k : matrix) (H W i j : nat) : np_float :=
  let kh := rows k in
  let kw := cols k in
  f_sum (m ← seq 0 kh;
         n ← seq 0 kw;
         [f_mul (cell k m n)
            (cell b
               (Z.to_nat ((Z.of_nat i + Z.of_nat ((kh - 1) / 2) - Z.of_nat m) mod Z.of_nat H))
               (Z.to_nat ((Z.of_nat j + Z.of_nat ((kw - 1) / 2) - Z.of_nat n) mod Z.of_nat W)))]).

(** A normalised kernel: a two-dimensional array whose entries sum to 1.
    A sum that is a finite number has only finite summands. *)
Definition normalised (k : matrix) : Prop :=
  (exists kh kw, rect kh kw k) /\ np_sum k = Fin 1.

(** A growth function that gives a number for every number. *)
Definition finite_valued (g : Growth_fn.t -> np_float -> np_float) : Prop :=
  forall p u, is_finite u -> is_finite (g p u).

(** The same at the parameters [p] that an engine holds *)
Definition finite_growth (p : Growth_fn.t)
    (g : Growth_fn.t -> np_float -> np_float) : Prop :=
  forall u, is_finite u -> is_finite (g p u).


(** The sum of a list of rationals *)
Definition Qsum (l : list Q) : Q := foldr Qplus 0%Q l.

(** One diameter even and the other odd *)
Definition parity_mismatch (outer_diameter inner_diameter : Z) : Prop :=
  Z.even outer_diameter <> Z.even inner_diameter.

(** A 2 x 2 engine state with a normalised 1 x 2 kernel *)
Definition example_automaton : Automaton.t := {|
  Automaton.cmap := "viridis";
  Automaton.dT := Fin (1 # 10);
  Automaton.kernel := [[Fin (1 # 2); Fin (1 # 2)]];
  Automaton.norm_factor := Fin (1 # 2);
  Automaton.params := Growth_fn.init;
  Automaton.growth := Some Growth_fn.growth_bosco;
  Automaton.board := [[Fin 0; Fin (1 # 2)]; [Fin 1; Fin (1 # 4)]];
  Automaton.board_shape := (2, 2)%nat
|}.

(** An engine state as [__init__] leaves it before [normalise_kernel],
    holding the kernel [k] *)
Definition with_kernel (k : matrix) : Automaton.t := {|
  Automaton.cmap := "viridis";
  Automaton.dT := Fin (1 # 10);
  Automaton.kernel := k;
  Automaton.norm_factor := NaN;
  Automaton.params := Growth_fn.init;
  Automaton.growth := None;
  Automaton.board := [];
  Automaton.board_shape := (0, 0)%nat
|}.

(** The kernel built by [square_kernel(3, 1)]: the Moore neighbourhood *)
Definition moore : matrix :=
  [[Fin 1; Fin 1; Fin 1]; [Fin 1; Fin 0; Fin 1]; [Fin 1; Fin 1; Fin 1]].

(** A cell of a binary grid *)
Definition binary (x : np_float) : Prop := x = Fin 0 \/ x = Fin 1.

Definition alive (x : np_float) : bool := f_eqb x (Fin 1).

(** The eight neighbours of [(i, j)] on the torus of shape [(H, W)] *)
Definition neighbours (b : matrix) (H W i j : nat) : list np_float :=
  let nb (di dj : Z) :=
    cell b (Z.to_nat ((Z.of_nat i + di) mod Z.of_nat H))
           (Z.to_nat ((Z.of_nat j + dj) mod Z.of_nat W)) in
  [nb 1 1; nb 1 0; nb 1 (-1); nb 0 1; nb 0 (-1); nb (-1) 1; nb (-1) 0; nb (-1) (-1)]%Z.

Definition live_neighbours (b : matrix) (H W i j : nat) : nat :=
  length (List.filter alive (neighbours b H W i j)).

(** The rule table of the Game of Life *)
Definition life_rule (is_alive : bool) (n : nat) : bool :=
  if is_alive then (n =? 2)%nat || (n =? 3)%nat else (n =? 3)%nat.

(** A 5 x 5 grid holding a horizontal blinker, with the Moore kernel as
    [square_kernel(3, 1)] builds it, conway growth and [dT = 1] *)
Definition blinker : matrix :=
  [[Fin 0; Fin 0; Fin 0; Fin 0; Fin 0];
   [Fin 0; Fin 0; Fin 0; Fin 0; Fin 0];
   [Fin 0; Fin 1; Fin 1; Fin 1; Fin 0];
   [Fin 0; Fin 0; Fin 0; Fin 0; Fin 0];
   [Fin 0; Fin 0; Fin 0; Fin 0; Fin 0]].

Definition conway_automaton (k b : matrix) : Automaton.t := {|
  Automaton.cmap := "viridis";
  Automaton.dT := Fin 1;
  Automaton.kernel := k;
  Automaton.norm_factor := NaN;
  Automaton.params := Growth_fn.init;
  Automaton.growth := Some Growth_fn.growth_conway;
  Automaton.board := b;
  Automaton.board_shape := (rows b, cols b)
|}.

(** The Moore kernel after normalisation *)
Definition moore_normalised : matrix :=
  [[Fin (1 # 8); Fin (1 # 8); Fin (1 # 8)];
   [Fin (1 # 8); Fin 0; Fin (1 # 8)];
   [Fin (1 # 8); Fin (1 # 8); Fin (1 # 8)]].

(** The growth parameters of [demo_conway]: the defaults of
    [Growth_fn.__init__] with the type tag ['bosco'] *)
Definition bosco_defaults : Growth_fn.t := {|
  Growth_fn.b1 := Growth_fn.b1 Growth_fn.init;
  Growth_fn.b2 := Growth_fn.b2 Growth_fn.init;
  Growth_fn.s1 := Growth_fn.s1 Growth_fn.init;
  Growth_fn.s2 := Growth_fn.s2 Growth_fn.init;
  Growth_fn.mu := Growth_fn.mu Growth_fn.init;
  Growth_fn.sigma := Growth_fn.sigma Growth_fn.init;
  Growth_fn.type := "bosco"
|}.

(** The frame loop of an animation: [animate_step] called once for each
    frame number, in order. *)
Fixpoint run_frames (frames : list Z) (self : Automaton.t) : py Automaton.t :=
  match frames with
  | [] => mret self
  | i :: rest => r ← Automaton.animate_step self i; run_frames rest (fst r)
  end.

(** A growth function whose values are numbers between -1 and 1 *)
Definition unit_growth (g : Growth_fn.t -> np_float -> np_float) : Prop :=
  forall p u, is_finite u -> exists v, g p u = Fin v /\ (-1 <= v /\ v <= 1)%Q.

(** An entry that is a number and is not negative *)
Definition non_negative (x : np_float) : Prop :=
  match x with Fin q => (0 <= q)%Q | _ => False end.

(** [shifted] is [b] moved by [(di, dj)] around the torus of shape
    [(H, W)]. *)
Definition torus_shift (H W : nat) (di dj : Z) (b shifted : matrix) : Prop :=
  rect H W shifted
  /\ forall i j, (i < H)%nat -> (j < W)%nat ->
       cell shifted i j =
         cell b (wrap_index (Z.of_nat i + di) H) (wrap_index (Z.of_nat j + dj) W).

(** [self.dT = dt] *)
Definition with_dT (self : Automaton.t) (dt : np_float) : Automaton.t := {|
  Automaton.cmap := Automaton.cmap self;
  Automaton.dT := dt;
  Automaton.kernel := Automaton.kernel self;
  Automaton.norm_factor := Automaton.norm_factor self;
  Automaton.params := Automaton.params self;
  Automaton.growth := Automaton.growth self;
  Automaton.board := Automaton.board self;
  Automaton.board_shape := Automaton.board_shape self
|}.

(** What [validate_args] makes of the value [v] of a numeric argument:
    [None] stays, anything else is replaced by its [float], which is not
    below zero.  [now] is the entry of the returned dictionary. *)
Definition numeric_cleaned (float_of_str : string -> option np_float)
    (v : Lenia.value) (now : option Lenia.value) : Prop :=
  (v = Lenia.VNone /\ now = Some Lenia.VNone)
  \/ exists x,
       outcome (Lenia.py_float float_of_str v) = inr x
       /\ f_lt x (of_Z 0) = false
       /\ now = Some (Lenia.VNum x).

(** What [validate_args] makes of the value [v] of [kernel_peaks]: [None]
    stays, anything else is replaced by the list of the [float]s of its
    items, none of them below 0 or above 1. *)
Definition peaks_cleaned (float_of_str : string -> option np_float)
    (v : Lenia.value) (now : option Lenia.value) : Prop :=
  (v = Lenia.VNone /\ now = Some Lenia.VNone)
  \/ exists items xs,
       outcome (Lenia.py_iter v) = inr items
       /\ outcome (Lenia.floats float_of_str items) = inr xs
       /\ Forall (fun x => f_lt x (of_Z 0) = false /\ f_gt x (of_Z 1) = false) xs
       /\ now = Some (Lenia.VList (Lenia.VNum <$> xs)).

(** An entry of a dictionary that the loop over [NUMERIC_ARGS] passes over
    without changing it: [None], or a float that is not below zero. *)
Definition clean_number (entry : option Lenia.value) : Prop :=
  entry = Some Lenia.VNone
  \/ exists x, entry = Some (Lenia.VNum x) /\ f_lt x (of_Z 0) = false.

(** The same for [kernel_peaks]: [None], or a list of floats none of which
    is below 0 or above 1. *)
Definition clean_peaks (entry : option Lenia.value) : Prop :=
  entry = Some Lenia.VNone
  \/ exists xs,
       entry = Some (Lenia.VList (Lenia.VNum <$> xs))
       /\ Forall (fun x => f_lt x (of_Z 0) = false /\ f_gt x (of_Z 1) = false) xs.

(** A reading of [float] on strings for the examples: it knows the decimal
    integers, ['nan'] and ['inf'], and rejects everything else. *)
Definition read_number (s : string) : option np_float :=
  if String.eqb s "nan" then Some NaN
  else if String.eqb s "inf" then Some (Inf false)
  else (fun z => of_Z (Z.of_int z)) <$> NilEmpty.int_of_string s.

(** The dictionary of a command line [--board-size 64 --dt 0 --sigma nan
    --kernel-peaks 1 0] *)
Definition example_args : Lenia.dict :=
  list_to_map
    [("board_size", Lenia.VStr "64"); ("kernel_size", Lenia.VNone);
     ("dt", Lenia.VStr "0"); ("frames", Lenia.VNone);
     ("sigma", Lenia.VStr "nan"); ("mu", Lenia.VNone); ("seed", Lenia.VNone);
     ("kernel_peaks", Lenia.VList [Lenia.VStr "1"; Lenia.VStr "0"]);
     ("conway", Lenia.VBool false); ("outfile", Lenia.VNone)].

(** The same dictionary after [validate_args] *)
Definition example_args_cleaned : Lenia.dict :=
  list_to_map
    [("board_size", Lenia.VNum (of_Z 64)); ("kernel_size", Lenia.VNone);
     ("dt", Lenia.VNum (of_Z 0)); ("frames", Lenia.VNone);
     ("sigma", Lenia.VNum NaN); ("mu", Lenia.VNone); ("seed", Lenia.VNone);
     ("kernel_peaks", Lenia.VList [Lenia.VNum (of_Z 1); Lenia.VNum (of_Z 0)]);
     ("conway", Lenia.VBool false); ("outfile", Lenia.VNone)].

(** * Properties *)

(** ** Arrays: shapes and entries *)

Lemma rect_row (H W : nat) (m : matrix) (i : nat) :
  rect H W m -> (i < H)%nat -> exists r, m !! i = Some r /\ length r = W.
Proof.
  intros [Hlen Hall] Hi.
  destruct (lookup_lt_is_Some_2 m i) as [r Hr]; [lia|].
  exists r. split; [done|].
  rewrite Forall_lookup in Hall. by apply (Hall i).
Qed.

Lemma rect_entry (H W : nat) (m : matrix) (i j : nat) :
  rect H W m -> (i < H)%nat -> (j < W)%nat ->
  exists r x, m !! i = Some r /\ r !! j = Some x /\ cell m i j = x.
Proof.
  intros Hm Hi Hj.
  destruct (rect_row H W m i Hm Hi) as (r & Hr & Hlen).
  destruct (lookup_lt_is_Some_2 r j) as [x Hx]; [lia|].
  exists r, x. unfold cell. rewrite Hr. simpl. by rewrite Hx.
Qed.

Lemma rect_rows (H W : nat) (m : matrix) : rect H W m -> rows m = H.
Proof. by intros [? _]. Qed.

Lemma rect_cols (H W : nat) (m : matrix) :
  rect H W m -> (0 < H)%nat -> cols m = W.
Proof.
  intros [Hlen Hall] Hpos. unfold cols.
  destruct m as [|r m]; simpl in *; [lia|].
  by inversion Hall.
Qed.

Lemma rect_np_map (H W : nat) (f : np_float -> np_float) (m : matrix) :
  rect H W m -> rect H W (np_map f m).
Proof.
  intros [Hlen Hall]. split.
  - unfold np_map. by rewrite length_fmap.
  - unfold np_map. rewrite Forall_fmap. eapply Forall_impl; [exact Hall|].
    intros r Hr. simpl. by rewrite length_fmap.
Qed.

Lemma cell_np_map (H W : nat) (f : np_float -> np_float) (m : matrix) (i j : nat) :
  rect H W m -> (i < H)%nat -> (j < W)%nat ->
  cell (np_map f m) i j = f (cell m i j).
Proof.
  intros Hm Hi Hj.
  destruct (rect_entry H W m i j Hm Hi Hj) as (r & x & Hr & Hx & ->).
  unfold cell, np_map. rewrite list_lookup_fmap, Hr. simpl.
  by rewrite list_lookup_fmap, Hx.
Qed.

Lemma rect_np_map2 (H W : nat) (f : np_float -> np_float -> np_float) (a b : matrix) :
  rect H W a -> rect H W b -> rect H W (np_map2 f a b).
Proof.
  intros [Ha Hra] [Hb Hrb]. split.
  - unfold np_map2. rewrite length_zip_with. lia.
  - apply Forall_lookup. intros i r Hr. unfold np_map2 in Hr.
    rewrite lookup_zip_with in Hr.
    destruct (a !! i) as [ra|] eqn:Ea; [|done].
    destruct (b !! i) as [rb|] eqn:Eb; [|done].
    simpl in Hr. inversion Hr; subst. rewrite length_zip_with.
    rewrite Forall_lookup in Hra. rewrite Forall_lookup in Hrb.
    rewrite (Hra i ra Ea), (Hrb i rb Eb). lia.
Qed.

Lemma cell_np_map2 (H W : nat) (f : np_float -> np_float -> np_float)
    (a b : matrix) (i j : nat) :
  rect H W a -> rect H W b -> (i < H)%nat -> (j < W)%nat ->
  cell (np_map2 f a b) i j = f (cell a i j) (cell b i j).
Proof.
  intros Ha Hb Hi Hj.
  destruct (rect_entry H W a i j Ha Hi Hj) as (ra & x & Hra & Hx & ->).
  destruct (rect_entry H W b i j Hb Hi Hj) as (rb & y & Hrb & Hy & ->).
  unfold cell, np_map2. rewrite lookup_zip_with, Hra, Hrb. simpl.
  by rewrite lookup_zip_with, Hx, Hy.
Qed.

Lemma rect_convolve (H W : nat) (a k : matrix) :
  rect H W a -> rect H W (convolve2d_same_wrap a k).
Proof.
  intros Ha. pose proof (rect_rows _ _ _ Ha) as Hrows.
  unfold convolve2d_same_wrap. split.
  - by rewrite length_fmap, length_seq.
  - rewrite Forall_fmap. apply Forall_forall. intros i Hi. simpl.
    rewrite length_fmap, length_seq. apply rect_cols with (H := H); [done|].
    apply elem_of_seq in Hi. lia.
Qed.

Lemma cell_convolve (H W : nat) (a k : matrix) (i j : nat) :
  rect H W a -> (i < H)%nat -> (j < W)%nat ->
  cell (convolve2d_same_wrap a k) i j = conv_at a k i j.
Proof.
  intros Ha Hi Hj.
  unfold cell, convolve2d_same_wrap.
  rewrite list_lookup_fmap, lookup_seq_lt by (rewrite (rect_rows _ _ _ Ha); lia).
  simpl. rewrite list_lookup_fmap, lookup_seq_lt; [done|].
  rewrite (rect_cols H W a Ha); lia.
Qed.

(** ** The update step *)

Lemma conv_at_wrapped_sum (H W : nat) (b k : matrix) (i j : nat) :
  rect H W b -> (i < H)%nat -> conv_at b k i j = wrapped_sum b k H W i j.
Proof.
  intros Hb Hi. unfold conv_at, conv_terms, wrapped_sum, wrap_index.
  rewrite (rect_rows _ _ _ Hb), (rect_cols H W b Hb) by lia. done.
Qed.

(** The board after one step, entry by entry. *)
Lemma update_convolutional_entries (self : Automaton.t)
    (g : Growth_fn.t -> np_float -> np_float) (H W : nat) :
  Automaton.growth self = Some g ->
  rect H W (Automaton.board self) ->
  exists b',
    Automaton.update_convolutional self = mret (Automaton.set_board self b', b')
    /\ rect H W b'
    /\ forall i j, (i < H)%nat -> (j < W)%nat ->
         cell b' i j =
           clip (f_add (cell (Automaton.board self) i j)
                       (f_mul (Automaton.dT self)
                          (g (Automaton.params self)
                             (conv_at (Automaton.board self) (Automaton.kernel self) i j))))
                (Fin 0) (Fin 1).
Proof.
  intros Hg Hb.
  pose proof (rect_convolve H W _ (Automaton.kernel self) Hb) as HU.
  eexists. split; [|split].
  - unfold Automaton.update_convolutional. rewrite Hg. reflexivity.
  - unfold np_clip, np_add, np_scale.
    by repeat first [apply rect_np_map | apply rect_np_map2].
  - intros i j Hi Hj. unfold np_clip, np_add, np_scale.
    rewrite (cell_np_map H W) by
      (try done; by repeat first [apply rect_np_map | apply rect_np_map2]).
    rewrite (cell_np_map2 H W) by
      (try done; by repeat first [apply rect_np_map | apply rect_np_map2]).
    rewrite (cell_np_map H W) by (try done; by apply rect_np_map).
    rewrite (cell_np_map H W) by done.
    by rewrite (cell_convolve H W).
Qed.

(** C1.  One call of [update_convolutional] on a board of shape [(H, W)]
    returns and stores the board whose entry [(i, j)] is
    [clip(board[i,j] + dT * growth(U[i,j]), 0, 1)], clipped once after the
    sum, where [U] is the wrapped convolution of the board with the kernel
    and has the shape of the board. *)
Theorem update_convolutional_step (self : Automaton.t)
    (g : Growth_fn.t -> np_float -> np_float) (H W : nat) :
  Automaton.growth self = Some g ->
  rect H W (Automaton.board self) ->
  let b := Automaton.board self in
  let k := Automaton.kernel self in
  let U := convolve2d_same_wrap b k in
  exists self' b',
    Automaton.update_convolutional self = Py [] (inr (self', b'))
    /\ self' = Automaton.set_board self b'
    /\ Automaton.board self' = b'
    /\ rect H W U
    /\ rect H W b'
    /\ forall i j, (i < H)%nat -> (j < W)%nat ->
         cell U i j = wrapped_sum b k H W i j
         /\ cell b' i j =
              clip (f_add (cell b i j)
                          (f_mul (Automaton.dT self)
                             (g (Automaton.params self) (cell U i j))))
                   (Fin 0) (Fin 1).
Proof.
  intros Hg Hb b k U.
  destruct (update_convolutional_entries self g H W Hg Hb) as (b' & Hrun & Hshape & Hcells).
  exists (Automaton.set_board self b'), b'.
  split; [exact Hrun|]. split; [done|]. split; [done|].
  split; [by apply rect_convolve|]. split; [done|].
  intros i j Hi Hj.
  assert (cell U i j = conv_at b k i j) as HUij by (by apply (cell_convolve H W)).
  split.
  - rewrite HUij. by apply conv_at_wrapped_sum.
  - rewrite HUij. by apply Hcells.
Qed.

(** ** Arithmetic on finite values *)

Lemma fin_eq (a b : Q) : (a == b)%Q -> fin a = fin b.
Proof. intros E. unfold fin. f_equal. by apply Qred_complete. Qed.

Lemma fin_Qred (a : Q) : fin (Qred a) = fin a.
Proof. apply fin_eq, Qred_correct. Qed.

Lemma is_finite_inv (x : np_float) : is_finite x -> exists q, x = Fin q.
Proof. destruct x; simpl; [eauto|done..]. Qed.

Lemma in_unit_finite (x : np_float) : in_unit x -> is_finite x.
Proof. by destruct x. Qed.

Lemma f_add_finite (x y : np_float) : is_finite x -> is_finite y -> is_finite (f_add x y).
Proof. by destruct x, y. Qed.

Lemma f_mul_finite (x y : np_float) : is_finite x -> is_finite y -> is_finite (f_mul x y).
Proof. by destruct x, y. Qed.

Lemma clip_in_unit (x : np_float) : x <> NaN -> in_unit (clip x (Fin 0) (Fin 1)).
Proof.
  intros Hx. destruct x as [q| [|] |];
    [| vm_compute; split; discriminate | vm_compute; split; discriminate | done].
  unfold clip, np_maximum, f_le.
  destruct (Qle_bool q 0) eqn:E0.
  - vm_compute; split; discriminate.
  - unfold np_minimum, f_le. destruct (Qle_bool q 1) eqn:E1.
    + apply Qle_bool_iff in E1. split; [|done].
      destruct (Qlt_le_dec 0 q) as [Hlt|Hle]; [by apply Qlt_le_weak|].
      apply Qle_bool_iff in Hle. congruence.
    + vm_compute; split; discriminate.
Qed.

(** A sum is a finite number exactly when every summand is. *)
Lemma foldl_f_add_not_finite (l : list np_float) (a : np_float) :
  ~ is_finite a -> ~ is_finite (foldl f_add a l).
Proof.
  revert a. induction l as [|x l IH]; intros a Ha; simpl; [done|].
  apply IH. destruct a as [q|s|]; [by destruct Ha | |]; destruct x as [r|t|]; simpl; try tauto.
  by destruct (eqb s t).
Qed.

Lemma foldl_f_add_finite_inv (l : list np_float) (a : np_float) :
  is_finite (foldl f_add a l) -> Forall is_finite l.
Proof.
  revert a. induction l as [|x l IH]; intros a Hs; [constructor|].
  simpl in Hs. constructor; [|by eapply IH].
  destruct x as [r|t|]; [done| |]; exfalso; revert Hs;
    apply foldl_f_add_not_finite; destruct a as [q|s|]; simpl; try tauto.
  destruct s, t; simpl; tauto.
Qed.

Lemma foldl_f_add_finite (l : list np_float) (a : np_float) :
  is_finite a -> Forall is_finite l -> is_finite (foldl f_add a l).
Proof.
  revert a. induction l as [|x l IH]; intros a Ha Hl; simpl; [done|].
  inversion Hl; subst. apply IH; [by apply f_add_finite | done].
Qed.

Lemma f_sum_finite (l : list np_float) : Forall is_finite l -> is_finite (f_sum l).
Proof. by apply foldl_f_add_finite. Qed.

Lemma np_sum_finite_inv (k : matrix) (s : Q) : np_sum k = Fin s -> all_cells is_finite k.
Proof.
  intros Hs. unfold all_cells. apply Forall_concat.
  apply (foldl_f_add_finite_inv _ (Fin 0)). unfold np_sum, f_sum in Hs. by rewrite Hs.
Qed.

Lemma all_cells_entry (P : np_float -> Prop) (H W : nat) (m : matrix) (i j : nat) :
  rect H W m -> all_cells P m -> (i < H)%nat -> (j < W)%nat -> P (cell m i j).
Proof.
  intros Hm Hall Hi Hj.
  destruct (rect_entry H W m i j Hm Hi Hj) as (r & x & Hr & Hx & ->).
  unfold all_cells in Hall. rewrite Forall_lookup in Hall.
  specialize (Hall i r Hr). rewrite Forall_lookup in Hall. by apply (Hall j).
Qed.

Lemma all_cells_intro (P : np_float -> Prop) (H W : nat) (m : matrix) :
  rect H W m ->
  (forall i j, (i < H)%nat -> (j < W)%nat -> P (cell m i j)) ->
  all_cells P m.
Proof.
  intros Hm Hcells. apply Forall_lookup. intros i r Hr.
  apply Forall_lookup. intros j x Hx.
  assert (i < H)%nat as Hi by (destruct Hm as [<- _]; by eapply lookup_lt_Some).
  destruct (rect_row H W m i Hm Hi) as (r' & Hr' & Hlen).
  assert (r' = r) as -> by congruence.
  assert (j < W)%nat as Hj by (rewrite <- Hlen; by eapply lookup_lt_Some).
  specialize (Hcells i j Hi Hj). unfold cell in Hcells.
  rewrite Hr in Hcells. simpl in Hcells. by rewrite Hx in Hcells.
Qed.

Lemma wrap_index_lt (z : Z) (n : nat) : (0 < n)%nat -> (wrap_index z n < n)%nat.
Proof.
  intros Hn. unfold wrap_index.
  pose proof (Z.mod_pos_bound z (Z.of_nat n)). lia.
Qed.

Lemma conv_at_finite (H W kh kw : nat) (b k : matrix) (i j : nat) :
  rect H W b -> all_cells is_finite b ->
  rect kh kw k -> all_cells is_finite k ->
  (i < H)%nat -> (j < W)%nat ->
  is_finite (conv_at b k i j).
Proof.
  intros Hb Hfb Hk Hfk Hi Hj. unfold conv_at. apply f_sum_finite.
  unfold conv_terms. apply Forall_bind, Forall_forall. intros m Hm. simpl.
  apply Forall_bind, Forall_forall. intros n Hn. simpl.
  apply Forall_singleton.
  apply elem_of_seq in Hm. apply elem_of_seq in Hn.
  rewrite (rect_rows _ _ _ Hk) in Hm.
  assert (0 < kh)%nat as Hkh by lia.
  rewrite (rect_cols kh kw k Hk Hkh) in Hn.
  apply f_mul_finite.
  - apply (all_cells_entry _ kh kw); [done..|lia|lia].
  - rewrite (rect_rows _ _ _ Hb), (rect_cols H W b Hb) by lia.
    apply (all_cells_entry _ H W); [done..| |]; apply wrap_index_lt; lia.
Qed.

(** C2 (amended).  Starting from a board with every value in [[0, 1]],
    with a normalised kernel, a growth function that at the parameters of
    the engine returns a number for every number, and a timestep that is a
    number, one step returns a board of the same shape with every value in
    [[0, 1]]. *)
Theorem update_convolutional_clamp_invariant (self : Automaton.t)
    (g : Growth_fn.t -> np_float -> np_float) (H W : nat) :
  Automaton.growth self = Some g ->
  rect H W (Automaton.board self) ->
  all_cells in_unit (Automaton.board self) ->
  normalised (Automaton.kernel self) ->
  finite_growth (Automaton.params self) g ->
  is_finite (Automaton.dT self) ->
  exists self' b',
    Automaton.update_convolutional self = Py [] (inr (self', b'))
    /\ Automaton.board self' = b'
    /\ rect H W b'
    /\ all_cells in_unit b'.
Proof.
  intros Hg Hb Hunit [(kh & kw & Hk) Hsum] Hfin HdT.
  destruct (update_convolutional_entries self g H W Hg Hb) as (b' & Hrun & Hshape & Hcells).
  exists (Automaton.set_board self b'), b'.
  split; [exact Hrun|]. split; [done|]. split; [done|].
  apply (all_cells_intro _ H W); [done|].
  intros i j Hi Hj. rewrite (Hcells i j Hi Hj).
  assert (all_cells is_finite (Automaton.board self)) as Hfb.
  { unfold all_cells in *. eapply Forall_impl; [exact Hunit|].
    intros r Hr. eapply Forall_impl; [exact Hr|]. apply in_unit_finite. }
  pose proof (np_sum_finite_inv _ _ Hsum) as Hfk.
  pose proof (conv_at_finite H W kh kw _ _ i j Hb Hfb Hk Hfk Hi Hj) as HU.
  pose proof (all_cells_entry _ H W _ i j Hb Hfb Hi Hj) as Hbij.
  apply clip_in_unit. intros Hnan.
  assert (is_finite NaN) as Hcontra; [|done].
  rewrite <- Hnan. apply f_add_finite; [done|].
  apply f_mul_finite; [done|]. by apply Hfin.
Qed.

Lemma growth_bosco_finite_valued : finite_valued Growth_fn.growth_bosco.
Proof.
  intros p u _. unfold Growth_fn.growth_bosco.
  by destruct (f_ge u (Growth_fn.b1 p) && f_lt u (Growth_fn.b2 p)),
              (f_lt u (Growth_fn.s1 p) || f_ge u (Growth_fn.s2 p)).
Qed.

Lemma update_convolutional_step_witness :
  exists self' b',
    Automaton.update_convolutional example_automaton = Py [] (inr (self', b'))
    /\ rect 2 2 b'.
Proof.
  destruct (update_convolutional_step example_automaton Growth_fn.growth_bosco 2 2)
    as (s & b & Hrun & _ & _ & _ & Hshape & _).
  - reflexivity.
  - split; [reflexivity | repeat constructor].
  - by exists s, b.
Defined.

Lemma update_convolutional_clamp_invariant_witness :
  exists self' b',
    Automaton.update_convolutional example_automaton = Py [] (inr (self', b'))
    /\ all_cells in_unit b'.
Proof.
  destruct (update_convolutional_clamp_invariant example_automaton
              Growth_fn.growth_bosco 2 2)
    as (s & b & Hrun & _ & _ & Hunit).
  - reflexivity.
  - split; [reflexivity | repeat constructor].
  - repeat constructor; vm_compute; discriminate.
  - split; [exists 1%nat, 2%nat; split; [reflexivity | repeat constructor] | reflexivity].
  - exact (growth_bosco_finite_valued _).
  - exact I.
  - by exists s, b.
Defined.

(** With an infinite timestep, which [validate_args] lets through, the
    clamp does not hold: where the growth is 0 the product [dT * 0] is NaN,
    and [np.clip] returns NaN for NaN. *)
Lemma update_convolutional_infinite_timestep_gives_nan :
  let self := with_dT example_automaton (Inf false) in
  all_cells in_unit (Automaton.board self)
  /\ normalised (Automaton.kernel self)
  /\ finite_growth (Automaton.params self) Growth_fn.growth_bosco
  /\ exists self' b',
       Automaton.update_convolutional self = Py [] (inr (self', b'))
       /\ cell b' 0 0 = NaN
       /\ ~ all_cells in_unit b'.
Proof.
  cbv zeta. split; [|split; [|split]].
  - repeat constructor; vm_compute; discriminate.
  - split; [exists 1%nat, 2%nat; split; [reflexivity | repeat constructor] | reflexivity].
  - exact (growth_bosco_finite_valued _).
  - eexists _, _. split; [reflexivity|]. split; [vm_compute; reflexivity|].
    intros Hall. inversion Hall as [|? ? Hrow _]. inversion Hrow as [|? ? Hcell _].
    vm_compute in Hcell. exact Hcell.
Qed.

(** ** The bosco growth function *)

(** C3 (amended).  [growth_bosco] is the indicator of the growth band
    [b1 <= U < b2] minus the indicator of the shrink band
    [U < s1 or U >= s2]: 1 in the growth band outside the shrink band, -1 in
    the shrink band outside the growth band, and 0 where both or neither
    hold.  With [b1 = 0.25, b2 = 0.5, s1 = 0.375, s2 = 0.5] it is 0 at 0.3,
    -1 at 0.1, -1 at 0.6 and 1 at 0.4. *)
Theorem growth_bosco_bands (self : Growth_fn.t) (U : np_float) :
  Growth_fn.growth_bosco self U =
    match f_ge U (Growth_fn.b1 self) && f_lt U (Growth_fn.b2 self),
          f_lt U (Growth_fn.s1 self) || f_ge U (Growth_fn.s2 self) with
    | true, false => Fin 1
    | false, true => Fin (-1)
    | _, _ => Fin 0
    end
  /\ Growth_fn.b1 Growth_fn.init = Fin (1 # 4)
  /\ Growth_fn.b2 Growth_fn.init = Fin (1 # 2)
  /\ Growth_fn.s1 Growth_fn.init = Fin (3 # 8)
  /\ Growth_fn.s2 Growth_fn.init = Fin (1 # 2)
  /\ Growth_fn.growth_bosco Growth_fn.init (Fin (3 # 10)) = Fin 0
  /\ Growth_fn.growth_bosco Growth_fn.init (Fin (1 # 10)) = Fin (-1)
  /\ Growth_fn.growth_bosco Growth_fn.init (Fin (6 # 10)) = Fin (-1)
  /\ Growth_fn.growth_bosco Growth_fn.init (Fin (4 # 10)) = Fin 1.
Proof.
  split; [|by repeat split].
  unfold Growth_fn.growth_bosco.
  by destruct (f_ge U (Growth_fn.b1 self) && f_lt U (Growth_fn.b2 self)),
              (f_lt U (Growth_fn.s1 self) || f_ge U (Growth_fn.s2 self)).
Qed.

(** At [U = 0.3] the default thresholds put [U] in the growth band, yet the
    result is not 1: 0.3 is below [s1 = 0.375], so the shrink band cancels
    the growth band. *)
Lemma growth_bosco_not_one_in_growth_band :
  f_ge (Fin (3 # 10)) (Growth_fn.b1 Growth_fn.init)
    && f_lt (Fin (3 # 10)) (Growth_fn.b2 Growth_fn.init) = true
  /\ Growth_fn.growth_bosco Growth_fn.init (Fin (3 # 10)) <> Fin 1.
Proof. split; [reflexivity | vm_compute; discriminate]. Qed.

(** ** Kernel construction guards *)

Lemma both_even_or_both_odd_even (od id : Z) :
  Kernel.both_even_or_both_odd od id = eqb (Z.even od) (Z.even id).
Proof.
  unfold Kernel.both_even_or_both_odd.
  rewrite (Zmod_even od), (Zmod_even id).
  by destruct (Z.even od), (Z.even id).
Qed.

Lemma parity_mismatch_guard (od id : Z) :
  parity_mismatch od id <-> Kernel.both_even_or_both_odd od id = false.
Proof.
  rewrite both_even_or_both_odd_even. unfold parity_mismatch.
  destruct (Z.even od), (Z.even id); simpl; split; congruence.
Qed.

(** C6 (amended).  When the diameters differ in parity, or the outer one is
    not greater than the inner one, [square_kernel] prints one error line
    and returns [None]: no kernel is returned and no exception is raised.
    [ring_kernel] does the same when the diameters differ in parity. *)
Theorem kernel_guards_print_and_return_None (outer_diameter inner_diameter : Z) :
  parity_mismatch outer_diameter inner_diameter
    \/ (outer_diameter <= inner_diameter)%Z ->
  Kernel.square_kernel outer_diameter inner_diameter =
    Py [if Kernel.both_even_or_both_odd outer_diameter inner_diameter
        then Kernel.diameter_message outer_diameter inner_diameter
        else Kernel.symmetry_message]
       (inr None)
  /\ (forall e, ~ raises (Kernel.square_kernel outer_diameter inner_diameter) e)
  /\ (parity_mismatch outer_diameter inner_diameter ->
      Kernel.ring_kernel outer_diameter inner_diameter =
        Py [Kernel.symmetry_message] (inr None)
      /\ forall e, ~ raises (Kernel.ring_kernel outer_diameter inner_diameter) e).
Proof.
  intros Hbad.
  assert (Kernel.square_kernel outer_diameter inner_diameter =
    Py [if Kernel.both_even_or_both_odd outer_diameter inner_diameter
        then Kernel.diameter_message outer_diameter inner_diameter
        else Kernel.symmetry_message] (inr None)) as Hsq.
  { unfold Kernel.square_kernel.
    destruct (Kernel.both_even_or_both_odd outer_diameter inner_diameter) eqn:Hpar; simpl.
    - destruct Hbad as [Hmis|Hle].
      + apply parity_mismatch_guard in Hmis. congruence.
      + apply Z.leb_le in Hle. by rewrite Hle.
    - reflexivity. }
  split; [exact Hsq|]. split.
  - intros e. unfold raises. by rewrite Hsq.
  - intros Hmis. apply parity_mismatch_guard in Hmis.
    unfold Kernel.ring_kernel, raises. rewrite Hmis. simpl. by split.
Qed.

Lemma kernel_guards_print_and_return_None_witness :
  Kernel.square_kernel 3 2 = Py [Kernel.symmetry_message] (inr None)
  /\ Kernel.ring_kernel 3 2 = Py [Kernel.symmetry_message] (inr None).
Proof.
  destruct (kernel_guards_print_and_return_None 3 2) as (Hsq & _ & Hring).
  - left. unfold parity_mismatch. simpl. discriminate.
  - split; [exact Hsq|]. apply Hring. unfold parity_mismatch. simpl. discriminate.
Defined.

(** [square_kernel(3, 2)] has diameters of unequal parity; it returns
    [None] and raises nothing, in particular no [ShapeError]. *)
Lemma square_kernel_parity_mismatch_does_not_raise :
  parity_mismatch 3 2
  /\ returns (Kernel.square_kernel 3 2) None
  /\ ~ raises (Kernel.square_kernel 3 2) (Exn "ShapeError").
Proof.
  split; [unfold parity_mismatch; simpl; discriminate|].
  split; [reflexivity|]. unfold raises. simpl. discriminate.
Qed.

(** ** Kernel normalisation *)

Lemma concat_np_map (f : np_float -> np_float) (k : matrix) :
  concat (np_map f k) = f <$> concat k.
Proof.
  unfold np_map. induction k as [|r k IH]; [done|].
  rewrite fmap_cons. cbn [concat]. rewrite fmap_app. by f_equal.
Qed.

Lemma np_map_ext (P : np_float -> Prop) (f g : np_float -> np_float) (k : matrix) :
  all_cells P k -> (forall x, P x -> f x = g x) -> np_map f k = np_map g k.
Proof.
  intros Hall Hfg. unfold np_map. apply Forall_fmap_ext_1.
  eapply Forall_impl; [exact Hall|]. intros r Hr. simpl.
  apply Forall_fmap_ext_1. eapply Forall_impl; [exact Hr|]. exact Hfg.
Qed.

Lemma np_map_np_map (f g : np_float -> np_float) (k : matrix) :
  np_map g (np_map f k) = np_map (fun x => g (f x)) k.
Proof.
  unfold np_map. rewrite <- list_fmap_compose. apply list_fmap_ext.
  intros i r _. simpl. by rewrite <- list_fmap_compose.
Qed.

Lemma foldl_f_add_fin (l : list np_float) (a : Q) :
  Forall is_finite l ->
  foldl f_add (fin a) l = fin (a + Qsum (qval <$> l)).
Proof.
  revert a. induction l as [|x l IH]; intros a Hl; simpl.
  - apply fin_eq. ring.
  - inversion Hl as [|? ? Hx Hl']; subst.
    destruct (is_finite_inv x Hx) as [q ->]. simpl.
    rewrite IH by done. apply fin_eq. rewrite Qred_correct. unfold fmap. ring.
Qed.

Lemma f_sum_fin (l : list np_float) :
  Forall is_finite l -> f_sum l = fin (Qsum (qval <$> l)).
Proof.
  intros Hl. unfold f_sum. change (Fin 0) with (fin 0).
  rewrite foldl_f_add_fin by done. apply fin_eq. ring.
Qed.

Lemma f_sum_value (l : list np_float) (s : Q) :
  f_sum l = Fin s -> (s == Qsum (qval <$> l))%Q.
Proof.
  intros Hs.
  assert (Forall is_finite l) as Hl.
  { apply (foldl_f_add_finite_inv _ (Fin 0)). unfold f_sum in Hs. by rewrite Hs. }
  rewrite (f_sum_fin l Hl) in Hs. unfold fin in Hs. inversion Hs.
  apply Qred_correct.
Qed.

Lemma Qsum_scaled (l : list np_float) (c : Q) :
  (Qsum (qval <$> ((fun w => fin (qval w / c)) <$> l)) == Qsum (qval <$> l) / c)%Q.
Proof.
  induction l as [|x l IH]; simpl.
  - unfold Qdiv. ring.
  - unfold fmap in *. rewrite IH, Qred_correct. unfold Qdiv. ring.
Qed.

Lemma Qis_zero_false (q : Q) : ~ (q == 0)%Q -> Qis_zero q = false.
Proof.
  intros Hq. unfold Qis_zero. destruct (Qeq_bool q 0) eqn:E; [|done].
  by apply Qeq_bool_eq in E.
Qed.

Lemma Qis_zero_true (q : Q) : (q == 0)%Q -> Qis_zero q = true.
Proof. intros Hq. by apply Qeq_eq_bool. Qed.

Lemma Qpos_nonzero (q : Q) : (0 < q)%Q -> ~ (q == 0)%Q.
Proof. intros Hq E. rewrite E in Hq. by apply Qlt_irrefl in Hq. Qed.

(** The Gaussian growth that [__init__] binds qualifies whenever [np.exp]
    gives numbers for numbers and [mu] and [sigma] are numbers, [sigma] not
    zero. *)
Lemma growth_gaussian_finite_growth (np_exp : np_float -> np_float)
    (p : Growth_fn.t) (m sg : Q) :
  (forall x, is_finite x -> is_finite (np_exp x)) ->
  Growth_fn.mu p = Fin m -> Growth_fn.sigma p = Fin sg -> ~ (sg == 0)%Q ->
  finite_growth p (Growth_fn.growth_gaussian np_exp).
Proof.
  intros Hexp Hmu Hsigma Hsg u Hu.
  destruct (is_finite_inv u Hu) as [q ->].
  unfold Growth_fn.growth_gaussian, Growth_fn.gaussian. rewrite Hmu, Hsigma.
  assert (is_finite (f_div (f_sq (f_sub (Fin q) (Fin m)))
                           (f_mul (of_Z 2) (f_sq (Fin sg))))) as Hdiv.
  { simpl. rewrite Qis_zero_false; [done|].
    rewrite !Qred_correct. intros Hzero. apply Hsg.
    change (inject_Z 2) with 2%Q in Hzero.
    assert (sg * sg == 0)%Q as Hsq.
    { revert Hzero. generalize (sg * sg)%Q. intros t Ht. lra. }
    apply Qmult_integral in Hsq. tauto. }
  destruct (is_finite_inv _ Hdiv) as [e ->].
  assert (is_finite (np_exp (f_neg (Fin e)))) as Hval by (by apply Hexp).
  destruct (is_finite_inv _ Hval) as [v ->]. done.
Qed.

(** Normalising a kernel whose entries sum to a positive [S]. *)
Lemma normalise_kernel_positive (self : Automaton.t) (S : Q) :
  np_sum (Automaton.kernel self) = Fin S -> (0 < S)%Q ->
  let k' := np_map (fun w => fin (qval w / S)) (Automaton.kernel self) in
  Automaton.normalise_kernel self =
    Py [] (inr (Automaton.set_kernel self k' (fin (1 / S)), k'))
  /\ np_sum k' = Fin 1.
Proof.
  intros Hsum Hpos k'.
  pose proof (np_sum_finite_inv _ _ Hsum) as Hfin.
  assert (Qred (inject_Z 1 * S) == S)%Q as HS1 by (rewrite Qred_correct; ring).
  assert (np_divide (Automaton.kernel self)
            (f_mul (of_Z 1) (np_sum (Automaton.kernel self))) = k') as Hk.
  { rewrite Hsum. unfold np_divide, k'. apply (np_map_ext is_finite); [done|].
    intros x Hx. destruct (is_finite_inv x Hx) as [a ->]. simpl.
    rewrite Qis_zero_false by (rewrite HS1; by apply Qpos_nonzero).
    apply fin_eq. by rewrite HS1. }
  split.
  - unfold Automaton.normalise_kernel. rewrite Hk. rewrite Hsum. simpl.
    rewrite Qis_zero_false by (rewrite HS1; by apply Qpos_nonzero).
    replace (fin (inject_Z 1 / Qred (inject_Z 1 * S))) with (fin (1 / S)); [done|].
    apply fin_eq. by rewrite HS1.
  - unfold np_sum, k'. rewrite concat_np_map.
    rewrite f_sum_fin.
    + change (Fin 1) with (fin 1). apply fin_eq.
      rewrite Qsum_scaled. rewrite <- (f_sum_value _ _ Hsum). field. by apply Qpos_nonzero.
    + apply Forall_fmap, Forall_forall. intros x _. done.
Qed.

Lemma square_kernel_3_1 : Kernel.square_kernel 3 1 = Py [] (inr (Some moore)).
Proof. reflexivity. Qed.

(** C7.  For a kernel whose entries sum to a positive [S], normalisation
    returns and stores the kernel with every weight divided by [S]; the new
    weights sum to 1 and [norm_factor] is [1 / S]. *)
Theorem normalise_kernel_sums_to_one (self : Automaton.t) (S : Q) :
  np_sum (Automaton.kernel self) = Fin S -> (0 < S)%Q ->
  exists self' k',
    Automaton.normalise_kernel self = Py [] (inr (self', k'))
    /\ Automaton.kernel self' = k'
    /\ k' = np_map (fun w => f_div w (Fin S)) (Automaton.kernel self)
    /\ np_sum k' = Fin 1
    /\ Automaton.norm_factor self' = f_div (Fin 1) (Fin S).
Proof.
  intros Hsum Hpos.
  destruct (normalise_kernel_positive self S Hsum Hpos) as [Hrun Hone].
  eexists _, _. split; [exact Hrun|]. split; [done|]. split; [|split; [exact Hone|]].
  - apply (np_map_ext is_finite); [by eapply np_sum_finite_inv|].
    intros x Hx. destruct (is_finite_inv x Hx) as [a ->]. simpl.
    by rewrite Qis_zero_false by (by apply Qpos_nonzero).
  - simpl. by rewrite Qis_zero_false by (by apply Qpos_nonzero).
Qed.

Lemma normalise_kernel_sums_to_one_witness :
  exists self' k',
    Automaton.normalise_kernel (with_kernel moore) = Py [] (inr (self', k'))
    /\ np_sum k' = Fin 1
    /\ Automaton.norm_factor self' = Fin (1 # 8).
Proof.
  destruct (normalise_kernel_sums_to_one (with_kernel moore) 8)
    as (s & k & Hrun & _ & _ & Hone & Hnf).
  - reflexivity.
  - reflexivity.
  - exists s, k. split; [exact Hrun|]. split; [exact Hone|]. exact Hnf.
Defined.

(** C8.  Normalisation is idempotent on the weights: for a kernel whose
    entries sum to a positive number, normalising the normalised kernel
    returns and stores the same weights again. *)
Theorem normalise_kernel_idempotent (self : Automaton.t) (S : Q) :
  np_sum (Automaton.kernel self) = Fin S -> (0 < S)%Q ->
  exists once k1 twice k2,
    Automaton.normalise_kernel self = Py [] (inr (once, k1))
    /\ Automaton.normalise_kernel once = Py [] (inr (twice, k2))
    /\ k2 = k1
    /\ Automaton.kernel twice = Automaton.kernel once.
Proof.
  intros Hsum Hpos.
  destruct (normalise_kernel_positive self S Hsum Hpos) as [Hrun1 Hone].
  set (k1 := np_map (fun w => fin (qval w / S)) (Automaton.kernel self)) in *.
  set (once := Automaton.set_kernel self k1 (fin (1 / S))) in *.
  assert (np_sum (Automaton.kernel once) = Fin 1) as Hsum1 by exact Hone.
  destruct (normalise_kernel_positive once 1 Hsum1) as [Hrun2 _]; [reflexivity|].
  assert (np_map (fun w => fin (qval w / 1)) (Automaton.kernel once) = k1) as Hsame.
  { change (Automaton.kernel once) with k1. unfold k1. rewrite np_map_np_map.
    apply (np_map_ext (fun _ => True)).
    - apply Forall_forall. intros r _. apply Forall_forall. done.
    - intros x _. cbn [fin qval]. apply fin_eq. rewrite Qred_correct. field.
      by apply Qpos_nonzero. }
  rewrite Hsame in Hrun2.
  eexists _, _, _, _. split; [exact Hrun1|]. split; [exact Hrun2|]. by split.
Qed.

Lemma normalise_kernel_idempotent_witness :
  exists once k1 twice k2,
    Automaton.normalise_kernel (with_kernel moore) = Py [] (inr (once, k1))
    /\ Automaton.normalise_kernel once = Py [] (inr (twice, k2))
    /\ k2 = k1.
Proof.
  destruct (normalise_kernel_idempotent (with_kernel moore) 8)
    as (s1 & k1 & s2 & k2 & Hrun1 & Hrun2 & Hk & _).
  - reflexivity.
  - reflexivity.
  - exists s1, k1, s2, k2. split; [exact Hrun1|]. split; [exact Hrun2|]. exact Hk.
Defined.

(** Normalising a kernel whose entries sum to zero: the division is carried
    out, nothing is raised. *)
Lemma normalise_kernel_zero_sum (self : Automaton.t) (S : Q) :
  np_sum (Automaton.kernel self) = Fin S -> (S == 0)%Q ->
  let k' := np_map (fun w => if Qis_zero (qval w) then NaN
                             else Inf (Qis_neg (qval w)))
                   (Automaton.kernel self) in
  Automaton.normalise_kernel self =
    Py [] (inr (Automaton.set_kernel self k' (Inf false), k')).
Proof.
  intros Hsum Hzero k'.
  pose proof (np_sum_finite_inv _ _ Hsum) as Hfin.
  assert (Qred (inject_Z 1 * S) == 0)%Q as HS1 by (rewrite Qred_correct, Hzero; ring).
  assert (np_divide (Automaton.kernel self)
            (f_mul (of_Z 1) (np_sum (Automaton.kernel self))) = k') as Hk.
  { rewrite Hsum. unfold np_divide, k'. apply (np_map_ext is_finite); [done|].
    intros x Hx. destruct (is_finite_inv x Hx) as [a ->]. simpl.
    by rewrite (Qis_zero_true _ HS1). }
  unfold Automaton.normalise_kernel. rewrite Hk, Hsum. simpl.
  by rewrite (Qis_zero_true _ HS1).
Qed.

(** C5.  On the 3 x 3 kernel of zeros, whose entries sum to zero,
    [normalise_kernel] raises nothing: it returns, every weight has become
    NaN and [norm_factor] is infinite. *)
Theorem normalise_kernel_zero_kernel_gives_nan :
  np_sum (np_full 3 3 (Fin 0)) = Fin 0
  /\ Automaton.normalise_kernel (with_kernel (np_full 3 3 (Fin 0))) =
       Py [] (inr (Automaton.set_kernel (with_kernel (np_full 3 3 (Fin 0)))
                     (np_full 3 3 NaN) (Inf false),
                   np_full 3 3 NaN))
  /\ ~ raises (Automaton.normalise_kernel (with_kernel (np_full 3 3 (Fin 0))))
         (Exn "DegenerateKernelError").
Proof.
  split; [reflexivity|]. split.
  - exact (normalise_kernel_zero_sum (with_kernel (np_full 3 3 (Fin 0))) 0
             eq_refl (Qeq_refl 0)).
  - unfold raises. simpl. discriminate.
Qed.

(** ** Zero padding and the board constructor *)

Lemma pad_zeros_rect (H W p : nat) (a : matrix) :
  rect H W a -> cols a = W -> rect (p + H + p) (p + W + p) (pad_zeros a p).
Proof.
  intros [Hlen Hall] Hcols. unfold pad_zeros. rewrite Hcols. split.
  - rewrite !length_app, !length_replicate, length_fmap, Hlen. lia.
  - rewrite !Forall_app. split; [|split].
    + apply Forall_replicate. by rewrite length_replicate.
    + rewrite Forall_fmap. eapply Forall_impl; [exact Hall|].
      intros r Hr. simpl in *. rewrite !length_app, !length_replicate, Hr. lia.
    + apply Forall_replicate. by rewrite length_replicate.
Qed.


Lemma pad_zeros_interior (H W p : nat) (a : matrix) (i j : nat) :
  rect H W a -> (i < H)%nat -> (j < W)%nat ->
  cell (pad_zeros a p) (p + i) (p + j) = cell a i j.
Proof.
  intros Ha Hi Hj.
  destruct (rect_entry H W a i j Ha Hi Hj) as (r & x & Hr & Hx & ->).
  unfold cell, pad_zeros.
  rewrite lookup_app_r by (rewrite length_replicate; lia).
  rewrite length_replicate.
  replace (p + i - p)%nat with i by lia.
  rewrite lookup_app_l by (rewrite length_fmap; by eapply lookup_lt_Some).
  rewrite list_lookup_fmap, Hr. simpl.
  rewrite lookup_app_r by (rewrite length_replicate; lia).
  rewrite length_replicate.
  replace (p + j - p)%nat with j by lia.
  rewrite lookup_app_l by (by eapply lookup_lt_Some).
  by rewrite Hx.
Qed.

Lemma pad_zeros_border (H W p : nat) (a : matrix) (i j : nat) :
  rect H W a -> cols a = W ->
  (i < p + H + p)%nat -> (j < p + W + p)%nat ->
  (i < p \/ p + H <= i \/ j < p \/ p + W <= j)%nat ->
  cell (pad_zeros a p) i j = Fin 0.
Proof.
  intros Ha Hcols Hi Hj Hborder.
  pose proof Ha as [Hlen Hall].
  unfold cell, pad_zeros. rewrite Hcols.
  destruct (decide (i < p)%nat) as [Hlo|Hlo].
  { rewrite lookup_app_l by (rewrite length_replicate; lia).
    rewrite lookup_replicate_2 by lia. simpl.
    by rewrite lookup_replicate_2 by lia. }
  rewrite lookup_app_r by (rewrite length_replicate; lia).
  rewrite length_replicate.
  destruct (decide (p + H <= i)%nat) as [Hhi|Hhi].
  { rewrite lookup_app_r by (rewrite length_fmap; lia).
    rewrite length_fmap.
    rewrite lookup_replicate_2 by lia. simpl.
    by rewrite lookup_replicate_2 by lia. }
  destruct (rect_row H W a (i - p) Ha) as (r & Hr & Hrlen); [lia|].
  rewrite lookup_app_l by (rewrite length_fmap; lia).
  rewrite list_lookup_fmap, Hr. simpl.
  destruct (decide (j < p)%nat) as [Hjlo|Hjlo].
  { rewrite lookup_app_l by (rewrite length_replicate; lia).
    by rewrite lookup_replicate_2 by lia. }
  rewrite lookup_app_r by (rewrite length_replicate; lia).
  rewrite length_replicate.
  rewrite lookup_app_r by lia.
  by rewrite lookup_replicate_2 by lia.
Qed.

Lemma rect_cols_square (n : nat) (a : matrix) : rect n n a -> cols a = n.
Proof.
  intros Ha. destruct n as [|n]; [|apply (rect_cols _ _ _ Ha); lia].
  destruct Ha as [Hlen _]. by destruct a.
Qed.





(** ** The smooth ring kernel *)

Section SmoothRingFacts.

Import SmoothRing.
Local Open Scope R_scope.

Lemma smooth_ring_kernel_entry (d : Z) (mu sigma : R) (i j : nat) :
  (i < Z.to_nat (d + 1))%nat -> (j < Z.to_nat (d + 1))%nat ->
  let D := centre_distance d i j / (IZR d / 2 + 1) in
  exists row,
    smooth_ring_kernel d mu sigma !! i = Some row
    /\ length row = Z.to_nat (d + 1)
    /\ row !! j = Some (lt_one D * gaussian D mu sigma).
Proof.
  intros Hi Hj D. unfold smooth_ring_kernel, arange.
  eexists. split; [|split].
  - rewrite !list_lookup_fmap, lookup_seq_lt by done. reflexivity.
  - by rewrite !length_fmap, length_seq.
  - rewrite !list_lookup_fmap, lookup_seq_lt by done. simpl.
    assert (sqrt ((- (IZR d / 2 + 1) + INR i + 1) * (- (IZR d / 2 + 1) + INR i + 1)
                  + (- (IZR d / 2 + 1) + INR j + 1) * (- (IZR d / 2 + 1) + INR j + 1))
            = centre_distance d i j) as ->; [|done].
    unfold centre_distance. f_equal. ring.
Qed.




End SmoothRingFacts.

(** ** The Game of Life *)

Lemma conv_terms_3x3 (b : matrix) (w1 w2 w3 w4 w5 w6 w7 w8 w9 : np_float) (i j : nat) :
  conv_terms b [[w1; w2; w3]; [w4; w5; w6]; [w7; w8; w9]] i j =
    let nb (m n : Z) :=
      cell b (wrap_index (Z.of_nat i + 1 - m) (rows b))
             (wrap_index (Z.of_nat j + 1 - n) (cols b)) in
    [f_mul w1 (nb 0 0); f_mul w2 (nb 0 1); f_mul w3 (nb 0 2);
     f_mul w4 (nb 1 0); f_mul w5 (nb 1 1); f_mul w6 (nb 1 2);
     f_mul w7 (nb 2 0); f_mul w8 (nb 2 1); f_mul w9 (nb 2 2)]%Z.
Proof. reflexivity. Qed.

Lemma wrap_index_self (i n : nat) : (i < n)%nat -> wrap_index (Z.of_nat i + 1 - 1) n = i.
Proof.
  intros Hi. unfold wrap_index.
  replace (Z.of_nat i + 1 - 1)%Z with (Z.of_nat i) by lia.
  rewrite Z.mod_small by lia. lia.
Qed.

(** One cell under the raw Moore kernel and conway growth: the sum is the
    number of live neighbours and the update is the rule table. *)
Lemma moore_conway_cell (p : Growth_fn.t) (x1 x2 x3 x4 x5 x6 x7 x8 c : np_float) :
  binary x1 -> binary x2 -> binary x3 -> binary x4 ->
  binary x5 -> binary x6 -> binary x7 -> binary x8 -> binary c ->
  let U := f_sum [f_mul (Fin 1) x1; f_mul (Fin 1) x2; f_mul (Fin 1) x3;
                  f_mul (Fin 1) x4; f_mul (Fin 0) c; f_mul (Fin 1) x5;
                  f_mul (Fin 1) x6; f_mul (Fin 1) x7; f_mul (Fin 1) x8] in
  let n := length (List.filter alive [x1; x2; x3; x4; x5; x6; x7; x8]) in
  U = of_Z (Z.of_nat n)
  /\ clip (f_add c (f_mul (Fin 1) (Growth_fn.growth_conway p U))) (Fin 0) (Fin 1)
     = of_bool (life_rule (alive c) n).
Proof.
  intros [-> | ->] [-> | ->] [-> | ->] [-> | ->] [-> | ->] [-> | ->]
         [-> | ->] [-> | ->] [-> | ->]; split; vm_compute; reflexivity.
Qed.

Lemma conv_terms_3x3_neighbours (H W : nat) (b : matrix)
    (w1 w2 w3 w4 w5 w6 w7 w8 w9 : np_float) (i j : nat) :
  rect H W b -> (i < H)%nat -> (j < W)%nat ->
  exists x1 x2 x3 x4 x5 x6 x7 x8,
    neighbours b H W i j = [x1; x2; x3; x4; x5; x6; x7; x8]
    /\ conv_terms b [[w1; w2; w3]; [w4; w5; w6]; [w7; w8; w9]] i j =
         [f_mul w1 x1; f_mul w2 x2; f_mul w3 x3;
          f_mul w4 x4; f_mul w5 (cell b i j); f_mul w6 x5;
          f_mul w7 x6; f_mul w8 x7; f_mul w9 x8].
Proof.
  intros Hb Hi Hj. unfold neighbours. eexists _, _, _, _, _, _, _, _.
  split; [reflexivity|].
  rewrite conv_terms_3x3. cbv zeta.
  rewrite (rect_rows _ _ _ Hb), (rect_cols H W b Hb) by lia.
  rewrite !wrap_index_self by done. unfold wrap_index.
  replace (Z.of_nat i + 1 - 0)%Z with (Z.of_nat i + 1)%Z by lia.
  replace (Z.of_nat j + 1 - 0)%Z with (Z.of_nat j + 1)%Z by lia.
  replace (Z.of_nat i + 1 - 2)%Z with (Z.of_nat i + -1)%Z by lia.
  replace (Z.of_nat j + 1 - 2)%Z with (Z.of_nat j + -1)%Z by lia.
  replace (Z.of_nat i + 0)%Z with (Z.of_nat i) by lia.
  replace (Z.of_nat j + 0)%Z with (Z.of_nat j) by lia.
  rewrite !(Z.mod_small (Z.of_nat i)) by lia.
  rewrite !(Z.mod_small (Z.of_nat j)) by lia.
  rewrite !Nat2Z.id. reflexivity.
Qed.

Lemma neighbours_cases (H W : nat) (b : matrix) (i j : nat) :
  rect H W b -> all_cells binary b -> (i < H)%nat -> (j < W)%nat ->
  forall x1 x2 x3 x4 x5 x6 x7 x8,
    neighbours b H W i j = [x1; x2; x3; x4; x5; x6; x7; x8] ->
    binary x1 /\ binary x2 /\ binary x3 /\ binary x4
    /\ binary x5 /\ binary x6 /\ binary x7 /\ binary x8.
Proof.
  intros Hb Hbin Hi Hj x1 x2 x3 x4 x5 x6 x7 x8 Hnb.
  assert (Forall binary (neighbours b H W i j)) as Hall.
  { unfold neighbours.
    repeat apply Forall_cons_2; [..|apply Forall_nil_2];
      apply (all_cells_entry binary H W); try done;
      match goal with
      | |- (Z.to_nat (?z mod Z.of_nat ?n) < ?n)%nat =>
          pose proof (Z.mod_pos_bound z (Z.of_nat n)); lia
      end. }
  rewrite Hnb in Hall.
  repeat match goal with
         | Hf : Forall _ (_ :: _) |- _ => inversion Hf; clear Hf; subst
         end. tauto.
Qed.

(** C4 (amended).  With the Moore kernel as [square_kernel(3, 1)] returns
    it, not normalised, conway growth, [dT = 1] and a binary grid, the
    neighbourhood sum of a cell is its number of live neighbours, between 0
    and 8, and one step gives 1 to a live cell with 2 or 3 live neighbours
    and to a dead cell with exactly 3, and 0 to every other cell. *)
Theorem conway_growth_on_neighbour_counts (self : Automaton.t) (H W : nat) :
  returns (Kernel.square_kernel 3 1) (Some (Automaton.kernel self)) ->
  Automaton.growth self = Some Growth_fn.growth_conway ->
  Automaton.dT self = of_Z 1 ->
  rect H W (Automaton.board self) ->
  all_cells binary (Automaton.board self) ->
  exists self' b',
    Automaton.update_convolutional self = Py [] (inr (self', b'))
    /\ Automaton.board self' = b'
    /\ rect H W b'
    /\ forall i j, (i < H)%nat -> (j < W)%nat ->
         let n := live_neighbours (Automaton.board self) H W i j in
         (n <= 8)%nat
         /\ cell (convolve2d_same_wrap (Automaton.board self) (Automaton.kernel self)) i j
            = of_Z (Z.of_nat n)
         /\ cell b' i j
            = of_bool (life_rule (alive (cell (Automaton.board self) i j)) n).
Proof.
  intros Hk Hg HdT Hb Hbin.
  assert (Automaton.kernel self = moore) as Hmoore.
  { unfold returns in Hk. rewrite square_kernel_3_1 in Hk. simpl in Hk. congruence. }
  destruct (update_convolutional_entries self _ H W Hg Hb) as (b' & Hrun & Hshape & Hcells).
  exists (Automaton.set_board self b'), b'.
  split; [exact Hrun|]. split; [done|]. split; [done|].
  intros i j Hi Hj n.
  destruct (conv_terms_3x3_neighbours H W (Automaton.board self)
              (Fin 1) (Fin 1) (Fin 1) (Fin 1) (Fin 0) (Fin 1) (Fin 1) (Fin 1) (Fin 1)
              i j Hb Hi Hj)
    as (x1 & x2 & x3 & x4 & x5 & x6 & x7 & x8 & Hnb & Hterms).
  fold moore in Hterms.
  pose proof (all_cells_entry binary H W _ i j Hb Hbin Hi Hj) as Hc.
  destruct (neighbours_cases H W _ i j Hb Hbin Hi Hj _ _ _ _ _ _ _ _ Hnb)
    as (B1 & B2 & B3 & B4 & B5 & B6 & B7 & B8).
  destruct (moore_conway_cell (Automaton.params self) x1 x2 x3 x4 x5 x6 x7 x8
              (cell (Automaton.board self) i j) B1 B2 B3 B4 B5 B6 B7 B8 Hc)
    as [HU Hnew].
  assert (conv_at (Automaton.board self) (Automaton.kernel self) i j
          = of_Z (Z.of_nat n)) as Hsum.
  { unfold conv_at. rewrite Hmoore, Hterms. unfold n, live_neighbours.
    rewrite Hnb. exact HU. }
  split; [|split].
  - unfold n, live_neighbours. rewrite Hnb.
    etransitivity; [apply List.filter_length_le|]. simpl. lia.
  - by rewrite (cell_convolve H W).
  - rewrite (Hcells i j Hi Hj), Hsum, HdT.
    unfold n, live_neighbours. rewrite Hnb.
    cbv zeta in HU, Hnew. rewrite HU in Hnew. exact Hnew.
Qed.

Lemma conway_growth_on_neighbour_counts_witness :
  exists self' b',
    Automaton.update_convolutional (conway_automaton moore blinker)
      = Py [] (inr (self', b'))
    /\ cell b' 2 2 = Fin 1
    /\ cell b' 1 2 = Fin 1
    /\ cell b' 2 1 = Fin 0.
Proof.
  destruct (conway_growth_on_neighbour_counts (conway_automaton moore blinker) 5 5)
    as (s & b & Hrun & _ & _ & Hcells).
  - reflexivity.
  - reflexivity.
  - reflexivity.
  - split; [reflexivity | repeat constructor].
  - repeat (apply Forall_cons_2 || apply Forall_nil_2);
      first [left; reflexivity | right; reflexivity].
  - exists s, b. split; [exact Hrun|].
    destruct (Hcells 2%nat 2%nat) as (_ & _ & H22); [lia | lia |].
    destruct (Hcells 1%nat 2%nat) as (_ & _ & H12); [lia | lia |].
    destruct (Hcells 2%nat 1%nat) as (_ & _ & H21); [lia | lia |].
    rewrite H22, H12, H21. by repeat split.
Defined.

(** Once [normalise_kernel] has run, as it does in [__init__], the sums
    are counts divided by 8 and conway growth is -1 everywhere: the middle
    cell of the blinker, alive with 2 live neighbours, becomes 0. *)
Lemma conway_growth_after_normalisation_clears_live_cell :
  exists engine k b',
    Automaton.normalise_kernel (conway_automaton moore blinker)
      = Py [] (inr (engine, k))
    /\ Automaton.update_convolutional engine = Py [] (inr (Automaton.set_board engine b', b'))
    /\ cell blinker 2 2 = Fin 1
    /\ live_neighbours blinker 5 5 2 2 = 2%nat
    /\ life_rule (alive (cell blinker 2 2)) (live_neighbours blinker 5 5 2 2) = true
    /\ cell b' 2 2 = Fin 0.
Proof.
  eexists _, _, _. split; [reflexivity|]. split; [reflexivity|].
  repeat split; vm_compute; reflexivity.
Qed.

(** *** The configuration of [demo_conway]

    The engine as [demo_conway] builds it, bosco growth with the default
    thresholds on the normalised Moore kernel at [dT = 1], is the Game of
    Life: the growth and shrink bands overlap on [[0.25, 0.375)], where a
    cell keeps its value. *)

Lemma moore_bosco_cell (x1 x2 x3 x4 x5 x6 x7 x8 c : np_float) :
  binary x1 -> binary x2 -> binary x3 -> binary x4 ->
  binary x5 -> binary x6 -> binary x7 -> binary x8 -> binary c ->
  let U := f_sum [f_mul (Fin (1 # 8)) x1; f_mul (Fin (1 # 8)) x2;
                  f_mul (Fin (1 # 8)) x3; f_mul (Fin (1 # 8)) x4;
                  f_mul (Fin 0) c; f_mul (Fin (1 # 8)) x5;
                  f_mul (Fin (1 # 8)) x6; f_mul (Fin (1 # 8)) x7;
                  f_mul (Fin (1 # 8)) x8] in
  let n := length (List.filter alive [x1; x2; x3; x4; x5; x6; x7; x8]) in
  clip (f_add c (f_mul (Fin 1) (Growth_fn.growth_bosco bosco_defaults U)))
       (Fin 0) (Fin 1)
  = of_bool (life_rule (alive c) n).
Proof.
  intros [-> | ->] [-> | ->] [-> | ->] [-> | ->] [-> | ->] [-> | ->]
         [-> | ->] [-> | ->] [-> | ->]; vm_compute; reflexivity.
Qed.

Lemma normalise_kernel_moore (self : Automaton.t) :
  Automaton.kernel self = moore ->
  Automaton.normalise_kernel self =
    Py [] (inr (Automaton.set_kernel self moore_normalised (Fin (1 # 8)),
                moore_normalised)).
Proof. intros Hk. unfold Automaton.normalise_kernel. rewrite Hk. reflexivity. Qed.

Lemma demo_conway_step_is_life (np_exp : np_float -> np_float)
    (bd : Board.t) (colours : string) (H W : nat) :
  rect H W (Board.board bd) ->
  all_cells binary (Board.board bd) ->
  exists engine b',
    Automaton.init np_exp bd moore bosco_defaults (of_Z 1) colours
      = Py [] (inr engine)
    /\ Automaton.kernel engine = moore_normalised
    /\ Automaton.update_convolutional engine
         = Py [] (inr (Automaton.set_board engine b', b'))
    /\ rect H W b'
    /\ forall i j, (i < H)%nat -> (j < W)%nat ->
         cell b' i j
         = of_bool (life_rule (alive (cell (Board.board bd) i j))
                              (live_neighbours (Board.board bd) H W i j)).
Proof.
  intros Hb Hbin.
  eexists. 
  assert (Automaton.init np_exp bd moore bosco_defaults (of_Z 1) colours
          = Py [] (inr {|
              Automaton.cmap := colours; Automaton.dT := of_Z 1;
              Automaton.kernel := moore_normalised;
              Automaton.norm_factor := Fin (1 # 8);
              Automaton.params := bosco_defaults;
              Automaton.growth := Some Growth_fn.growth_bosco;
              Automaton.board := Board.board bd;
              Automaton.board_shape := (rows (Board.board bd), cols (Board.board bd))
            |})) as Hinit by reflexivity.
  set (engine := {| Automaton.cmap := colours; Automaton.dT := of_Z 1;
              Automaton.kernel := moore_normalised;
              Automaton.norm_factor := Fin (1 # 8);
              Automaton.params := bosco_defaults;
              Automaton.growth := Some Growth_fn.growth_bosco;
              Automaton.board := Board.board bd;
              Automaton.board_shape := (rows (Board.board bd), cols (Board.board bd))
            |}) in *.
  destruct (update_convolutional_entries engine Growth_fn.growth_bosco H W eq_refl Hb)
    as (b' & Hrun & Hshape & Hcells).
  exists b'. split; [exact Hinit|]. split; [reflexivity|].
  split; [exact Hrun|]. split; [exact Hshape|].
  intros i j Hi Hj.
  destruct (conv_terms_3x3_neighbours H W (Board.board bd)
              (Fin (1 # 8)) (Fin (1 # 8)) (Fin (1 # 8)) (Fin (1 # 8)) (Fin 0)
              (Fin (1 # 8)) (Fin (1 # 8)) (Fin (1 # 8)) (Fin (1 # 8))
              i j Hb Hi Hj)
    as (x1 & x2 & x3 & x4 & x5 & x6 & x7 & x8 & Hnb & Hterms).
  fold moore_normalised in Hterms.
  pose proof (all_cells_entry binary H W _ i j Hb Hbin Hi Hj) as Hc.
  destruct (neighbours_cases H W _ i j Hb Hbin Hi Hj _ _ _ _ _ _ _ _ Hnb)
    as (B1 & B2 & B3 & B4 & B5 & B6 & B7 & B8).
  pose proof (moore_bosco_cell x1 x2 x3 x4 x5 x6 x7 x8
                (cell (Board.board bd) i j) B1 B2 B3 B4 B5 B6 B7 B8 Hc) as Hnew.
  cbv zeta in Hnew.
  rewrite (Hcells i j Hi Hj). unfold live_neighbours. rewrite Hnb.
  unfold conv_at. change (Automaton.kernel engine) with moore_normalised.
  change (Automaton.board engine) with (Board.board bd).
  rewrite Hterms. exact Hnew.
Qed.

(** * Further properties of the code *)

(** ** Square kernels *)

Lemma rect_np_full (n m : nat) (x : np_float) : rect n m (np_full n m x).
Proof.
  unfold np_full. split; [by rewrite length_replicate|].
  apply Forall_replicate. by rewrite length_replicate.
Qed.

Lemma cell_np_full (n m : nat) (x : np_float) (i j : nat) :
  (i < n)%nat -> (j < m)%nat -> cell (np_full n m x) i j = x.
Proof.
  intros Hi Hj. unfold cell, np_full.
  rewrite lookup_replicate_2 by done. simpl. by rewrite lookup_replicate_2 by done.
Qed.

Lemma same_parity_half (od id : Z) :
  Kernel.both_even_or_both_odd od id = true ->
  (2 * ((od - id) / 2) = od - id)%Z.
Proof.
  rewrite both_even_or_both_odd_even. intros Hpar.
  assert (Z.even (od - id) = true) as Heven by (by rewrite Z.even_sub).
  apply Z.even_spec in Heven. destruct Heven as [h Hh]. rewrite Hh.
  rewrite (Z.mul_comm 2 h), Z.div_mul by lia. lia.
Qed.

(** X1.  For diameters of equal parity with [0 <= inner < outer],
    [square_kernel] prints nothing and returns an [outer x outer] array that
    is 0 on the centred [inner x inner] block and 1 everywhere else. *)
Theorem square_kernel_frame (outer_diameter inner_diameter : Z) :
  Kernel.both_even_or_both_odd outer_diameter inner_diameter = true ->
  (0 <= inner_diameter < outer_diameter)%Z ->
  let n := Z.to_nat outer_diameter in
  let m := Z.to_nat inner_diameter in
  let p := Z.to_nat ((outer_diameter - inner_diameter) / 2) in
  exists k,
    Kernel.square_kernel outer_diameter inner_diameter = Py [] (inr (Some k))
    /\ rect n n k
    /\ (p + m + p = n)%nat
    /\ forall i j, (i < n)%nat -> (j < n)%nat ->
         cell k i j =
           if ((p <=? i) && (i <? p + m) && (p <=? j) && (j <? p + m))%nat
           then Fin 0 else Fin 1.
Proof.
  intros Hpar [Hid Hlt] n m p.
  pose proof (same_parity_half _ _ Hpar) as Hhalf.
  assert (p + m + p = n)%nat as Hsize by (unfold p, m, n; lia).
  assert (rect n n (pad_zeros (np_full m m (Fin 1)) p)) as Hinner.
  { rewrite <- Hsize. apply pad_zeros_rect; [apply rect_np_full|].
    apply rect_cols_square, rect_np_full. }
  exists (np_subtract (np_full n n (Fin 1)) (pad_zeros (np_full m m (Fin 1)) p)).
  split; [|split; [|split; [exact Hsize|]]].
  - unfold Kernel.square_kernel. rewrite Hpar. simpl negb. cbv iota.
    assert ((outer_diameter <=? inner_diameter)%Z = false) as -> by (apply Z.leb_gt; lia).
    unfold np_ones, np_pad.
    assert ((inner_diameter <? 0)%Z = false) as -> by (apply Z.ltb_ge; lia).
    assert ((outer_diameter <? 0)%Z = false) as -> by (apply Z.ltb_ge; lia).
    assert (((outer_diameter - inner_diameter) / 2 <? 0)%Z = false) as ->
      by (apply Z.ltb_ge; lia).
    reflexivity.
  - apply rect_np_map2; [apply rect_np_full | exact Hinner].
  - intros i j Hi Hj. unfold np_subtract.
    rewrite (cell_np_map2 n n) by (try done; apply rect_np_full).
    rewrite cell_np_full by done.
    destruct ((p <=? i) && (i <? p + m) && (p <=? j) && (j <? p + m))%nat eqn:Hin.
    + apply andb_prop in Hin as [Hin Hj2]. apply andb_prop in Hin as [Hin Hj1].
      apply andb_prop in Hin as [Hi1 Hi2].
      apply Nat.leb_le in Hi1, Hj1. apply Nat.ltb_lt in Hi2, Hj2.
      replace i with (p + (i - p))%nat by lia.
      replace j with (p + (j - p))%nat by lia.
      rewrite (pad_zeros_interior m m) by (try apply rect_np_full; lia).
      rewrite cell_np_full by lia. reflexivity.
    + rewrite (pad_zeros_border m m);
        [reflexivity | apply rect_np_full | apply rect_cols_square, rect_np_full
         | lia | lia |].
      destruct (p <=? i)%nat eqn:E1; [|apply Nat.leb_gt in E1; lia].
      destruct (i <? p + m)%nat eqn:E2; [|apply Nat.ltb_ge in E2; lia].
      destruct (p <=? j)%nat eqn:E3; [|apply Nat.leb_gt in E3; lia].
      destruct (j <? p + m)%nat eqn:E4; [|apply Nat.ltb_ge in E4; lia].
      discriminate.
Qed.

Lemma square_kernel_frame_witness :
  exists k,
    Kernel.square_kernel 5 3 = Py [] (inr (Some k))
    /\ cell k 0 2 = Fin 1 /\ cell k 1 1 = Fin 0 /\ cell k 3 3 = Fin 0 /\ cell k 4 4 = Fin 1.
Proof.
  destruct (square_kernel_frame 5 3) as (k & Hrun & _ & _ & Hcells).
  - reflexivity.
  - lia.
  - exists k. split; [exact Hrun|].
    rewrite (Hcells 0 2)%nat, (Hcells 1 1)%nat, (Hcells 3 3)%nat, (Hcells 4 4)%nat
      by (simpl; lia).
    by repeat split.
Defined.

(** X2.  A negative inner diameter of the parity of the outer one passes
    both guards of [square_kernel]; [np.ones] then raises [ValueError],
    nothing is printed and nothing is returned. *)
Theorem square_kernel_negative_inner_raises (outer_diameter inner_diameter : Z) :
  Kernel.both_even_or_both_odd outer_diameter inner_diameter = true ->
  (inner_diameter < 0)%Z ->
  (inner_diameter < outer_diameter)%Z ->
  Kernel.square_kernel outer_diameter inner_diameter = Py [] (inl ValueError).
Proof.
  intros Hpar Hneg Hlt.
  unfold Kernel.square_kernel. rewrite Hpar. simpl negb. cbv iota.
  assert ((outer_diameter <=? inner_diameter)%Z = false) as -> by (apply Z.leb_gt; lia).
  unfold np_ones.
  assert ((inner_diameter <? 0)%Z = true) as -> by (apply Z.ltb_lt; lia).
  reflexivity.
Qed.

Lemma square_kernel_negative_inner_raises_witness :
  Kernel.square_kernel 3 (-1) = Py [] (inl ValueError).
Proof.
  apply (square_kernel_negative_inner_raises 3 (-1)); [reflexivity | lia | lia].
Defined.

(** ** Circular and ring kernels *)

Lemma Qle_bool_ext (a a' r r' : Q) :
  (a == a')%Q -> (r == r')%Q -> Qle_bool a r = Qle_bool a' r'.
Proof. intros Ha Hr. by rewrite Ha, Hr. Qed.

Lemma within_radius_transpose (d : Z) (i j : nat) :
  Kernel.within_radius d i j = Kernel.within_radius d j i.
Proof. unfold Kernel.within_radius. apply Qle_bool_ext; ring. Qed.

Lemma within_radius_flip (d : Z) (i j : nat) :
  (i < Z.to_nat d)%nat ->
  Kernel.within_radius d (Z.to_nat d - 1 - i) j = Kernel.within_radius d i j.
Proof.
  intros Hi. unfold Kernel.within_radius. apply Qle_bool_ext; [|ring].
  replace (Z.of_nat (Z.to_nat d - 1 - i)) with (d + - (1) + - Z.of_nat i)%Z by lia.
  rewrite !inject_Z_plus, !inject_Z_opp. field.
Qed.

Lemma circular_kernel_plain (d : Z) :
  (0 <= d)%Z ->
  exists k,
    Kernel.circular_kernel d false = Py [] (inr k)
    /\ rect (Z.to_nat d) (Z.to_nat d) k
    /\ forall i j, (i < Z.to_nat d)%nat -> (j < Z.to_nat d)%nat ->
         cell k i j = of_bool (Kernel.within_radius d i j).
Proof.
  intros Hd. eexists. split; [|split].
  - unfold Kernel.circular_kernel.
    assert ((d <? 0)%Z = false) as -> by (apply Z.ltb_ge; lia). reflexivity.
  - split; [by rewrite length_fmap, length_seq|].
    rewrite Forall_fmap. apply Forall_forall. intros i _. simpl.
    by rewrite length_fmap, length_seq.
  - intros i j Hi Hj. unfold cell.
    rewrite list_lookup_fmap, lookup_seq_lt by done. simpl.
    by rewrite list_lookup_fmap, lookup_seq_lt by done.
Qed.

(** X3.  For [d >= 0], [circular_kernel(d)] is a [d x d] array of zeros and
    ones that is unchanged by transposition and by flipping either axis. *)
Theorem circular_kernel_symmetric (d : Z) :
  (0 <= d)%Z ->
  let n := Z.to_nat d in
  exists k,
    Kernel.circular_kernel d false = Py [] (inr k)
    /\ rect n n k
    /\ all_cells binary k
    /\ forall i j, (i < n)%nat -> (j < n)%nat ->
         cell k j i = cell k i j
         /\ cell k (n - 1 - i) j = cell k i j
         /\ cell k i (n - 1 - j) = cell k i j.
Proof.
  intros Hd n.
  destruct (circular_kernel_plain d Hd) as (k & Hrun & Hshape & Hcells).
  exists k. split; [exact Hrun|]. split; [exact Hshape|]. split.
  - apply (all_cells_intro _ n n); [exact Hshape|].
    intros i j Hi Hj. rewrite (Hcells i j Hi Hj).
    destruct (Kernel.within_radius d i j); [by right | by left].
  - intros i j Hi Hj.
    rewrite !Hcells by (unfold n in *; lia).
    split; [|split]; f_equal.
    + apply within_radius_transpose.
    + by apply within_radius_flip.
    + rewrite (within_radius_transpose d i), (within_radius_transpose d i j).
      by apply within_radius_flip.
Qed.

Lemma circular_kernel_symmetric_witness :
  exists k,
    Kernel.circular_kernel 5 false = Py [] (inr k)
    /\ cell k 4 1 = cell k 0 1
    /\ cell k 1 0 = cell k 0 1.
Proof.
  destruct (circular_kernel_symmetric 5) as (k & Hrun & _ & _ & Hsym); [lia|].
  exists k. split; [exact Hrun|].
  destruct (Hsym 0 1)%nat as (Ht & Hf & _); [simpl; lia | simpl; lia |].
  split; [exact Hf | exact Ht].
Defined.

(** X4.  With [invert=True], [circular_kernel] returns the complement:
    an entry is 1 where the plain kernel has 0 and 0 where it has 1. *)
Theorem circular_kernel_invert_complement (d : Z) :
  (0 <= d)%Z ->
  let n := Z.to_nat d in
  exists k k',
    Kernel.circular_kernel d false = Py [] (inr k)
    /\ Kernel.circular_kernel d true = Py [] (inr k')
    /\ rect n n k'
    /\ forall i j, (i < n)%nat -> (j < n)%nat ->
         (cell k i j = Fin 1 /\ cell k' i j = Fin 0)
         \/ (cell k i j = Fin 0 /\ cell k' i j = Fin 1).
Proof.
  intros Hd n.
  destruct (circular_kernel_plain d Hd) as (k & Hrun & Hshape & Hcells).
  exists k, (np_map Kernel.logical_not k).
  split; [exact Hrun|]. split; [|split].
  - unfold Kernel.circular_kernel in *.
    assert ((d <? 0)%Z = false) as Hneg by (apply Z.ltb_ge; lia).
    rewrite Hneg in *. inversion Hrun as [Hk]. reflexivity.
  - by apply rect_np_map.
  - intros i j Hi Hj. rewrite (cell_np_map n n) by done.
    rewrite (Hcells i j Hi Hj).
    destruct (Kernel.within_radius d i j); [left | right]; by split.
Qed.

Lemma circular_kernel_invert_complement_witness :
  exists k',
    Kernel.circular_kernel 5 true = Py [] (inr k')
    /\ cell k' 0 0 = Fin 1 /\ cell k' 2 2 = Fin 0.
Proof.
  destruct (circular_kernel_invert_complement 5) as (k & k' & Hrun & Hrun' & _ & _); [lia|].
  exists k'. split; [exact Hrun'|].
  inversion Hrun'. split; reflexivity.
Defined.

Lemma square_le_square (x y : Q) :
  (0 <= x)%Q -> (x <= y)%Q -> (x / 2 * (x / 2) <= y / 2 * (y / 2))%Q.
Proof.
  intros Hx Hxy.
  assert (0 <= (y - x) * (y + x))%Q as Hprod by (apply Qmult_le_0_compat; lra).
  apply Qle_minus_iff.
  assert (y / 2 * (y / 2) + - (x / 2 * (x / 2)) == (y - x) * (y + x) * (1 # 4))%Q
    as -> by field.
  apply Qmult_le_0_compat; [exact Hprod | discriminate].
Qed.

(** The inner disc, padded to the size of the outer one, lies inside the
    outer disc: both have the same centre. *)
Lemma inner_disc_within_outer (od id : Z) (i j : nat) :
  Kernel.both_even_or_both_odd od id = true ->
  (0 <= id <= od)%Z ->
  let p := Z.to_nat ((od - id) / 2) in
  (p <= i)%nat -> (p <= j)%nat ->
  Kernel.within_radius id (i - p) (j - p) = true ->
  Kernel.within_radius od i j = true.
Proof.
  intros Hpar [Hid Hle] p Hi Hj Hin.
  pose proof (same_parity_half _ _ Hpar) as Hhalf.
  assert (Z.of_nat p = (od - id) / 2)%Z as Hp by (unfold p; lia).
  clearbody p. clear Hpar.
  remember ((od - id) / 2)%Z as h eqn:Hh. clear Hh.
  assert (od = id + 2 * h)%Z as -> by lia.
  unfold Kernel.within_radius in *.
  apply Qle_bool_iff in Hin. apply Qle_bool_iff.
  replace (Z.of_nat (i - p)) with (Z.of_nat i + - h)%Z in Hin by lia.
  replace (Z.of_nat (j - p)) with (Z.of_nat j + - h)%Z in Hin by lia.
  rewrite !inject_Z_plus, !inject_Z_opp in Hin.
  rewrite !inject_Z_plus, !inject_Z_mult.
  assert (0 <= inject_Z id)%Q as Hid'
    by (change 0%Q with (inject_Z 0); rewrite <- Zle_Qle; lia).
  assert (0 <= inject_Z h)%Q as Hh'
    by (change 0%Q with (inject_Z 0); rewrite <- Zle_Qle; lia).
  pose proof (square_le_square (inject_Z id) (inject_Z id + inject_Z 2 * inject_Z h) Hid')
    as Hsq.
  assert (inject_Z 2 == 2)%Q as H2 by reflexivity.
  rewrite H2 in *.
  set (x := inject_Z (Z.of_nat i)) in *. set (y := inject_Z (Z.of_nat j)) in *.
  set (c := inject_Z id) in *. set (e := inject_Z h) in *.
  assert ((x - (c + 2 * e - 1) / 2) * (x - (c + 2 * e - 1) / 2)
          + (y - (c + 2 * e - 1) / 2) * (y - (c + 2 * e - 1) / 2)
          == (x + - e - (c - 1) / 2) * (x + - e - (c - 1) / 2)
             + (y + - e - (c - 1) / 2) * (y + - e - (c - 1) / 2))%Q as -> by field.
  apply (Qle_trans _ _ _ Hin). apply Hsq. lra.
Qed.

Lemma ring_kernel_runs (od id : Z) :
  Kernel.both_even_or_both_odd od id = true ->
  (0 <= id <= od)%Z ->
  forall k_in k_out,
    Kernel.circular_kernel id false = Py [] (inr k_in) ->
    Kernel.circular_kernel od false = Py [] (inr k_out) ->
    Kernel.ring_kernel od id =
      Py [] (inr (Some (np_subtract k_out
                          (pad_zeros k_in (Z.to_nat ((od - id) / 2)))))).
Proof.
  intros Hpar [Hid Hle] k_in k_out Hin Hout.
  pose proof (same_parity_half _ _ Hpar) as Hhalf.
  unfold Kernel.ring_kernel. rewrite Hpar. simpl negb. cbv iota.
  rewrite Hin, Hout. unfold np_pad.
  assert (((od - id) / 2 <? 0)%Z = false) as -> by (apply Z.ltb_ge; lia).
  reflexivity.
Qed.

(** X5.  For diameters of equal parity with [0 <= inner <= outer],
    [ring_kernel] prints nothing and returns an [outer x outer] array of
    zeros and ones, never -1: an entry is 1 exactly when it lies in the outer
    disc and not in the centred inner disc. *)
Theorem ring_kernel_is_binary (outer_diameter inner_diameter : Z) :
  Kernel.both_even_or_both_odd outer_diameter inner_diameter = true ->
  (0 <= inner_diameter <= outer_diameter)%Z ->
  let n := Z.to_nat outer_diameter in
  let m := Z.to_nat inner_diameter in
  let p := Z.to_nat ((outer_diameter - inner_diameter) / 2) in
  exists k,
    Kernel.ring_kernel outer_diameter inner_diameter = Py [] (inr (Some k))
    /\ rect n n k
    /\ all_cells binary k
    /\ forall i j, (i < n)%nat -> (j < n)%nat ->
         cell k i j =
           of_bool
             (Kernel.within_radius outer_diameter i j
              && negb ((p <=? i)%nat && (i <? p + m)%nat
                       && (p <=? j)%nat && (j <? p + m)%nat
                       && Kernel.within_radius inner_diameter (i - p) (j - p))).
Proof.
  intros Hpar Hrange n m p.
  pose proof Hrange as [Hid Hle].
  pose proof (same_parity_half _ _ Hpar) as Hhalf.
  assert (p + m + p = n)%nat as Hsize by (unfold p, m, n; lia).
  destruct (circular_kernel_plain inner_diameter Hid) as (k_in & Hin & Hsin & Hcin).
  destruct (circular_kernel_plain outer_diameter) as (k_out & Hout & Hsout & Hcout); [lia|].
  fold m in Hsin, Hcin. fold n in Hsout, Hcout.
  assert (rect n n (pad_zeros k_in p)) as Hpadded.
  { rewrite <- Hsize. apply pad_zeros_rect; [done | by apply rect_cols_square]. }
  assert (forall i j, (i < n)%nat -> (j < n)%nat ->
            cell (np_subtract k_out (pad_zeros k_in p)) i j =
              of_bool
                (Kernel.within_radius outer_diameter i j
                 && negb ((p <=? i)%nat && (i <? p + m)%nat
                          && (p <=? j)%nat && (j <? p + m)%nat
                          && Kernel.within_radius inner_diameter (i - p) (j - p))))
    as Hcells.
  { intros i j Hi Hj. unfold np_subtract.
    rewrite (cell_np_map2 n n) by done. rewrite (Hcout i j Hi Hj).
    destruct ((p <=? i)%nat && (i <? p + m)%nat && (p <=? j)%nat && (j <? p + m)%nat)
      eqn:Hblock.
    - apply andb_prop in Hblock as [Hblock Hj2]. apply andb_prop in Hblock as [Hblock Hj1].
      apply andb_prop in Hblock as [Hi1 Hi2].
      apply Nat.leb_le in Hi1, Hj1. apply Nat.ltb_lt in Hi2, Hj2.
      replace (cell (pad_zeros k_in p) i j) with (cell k_in (i - p) (j - p)).
      2: { rewrite <- (pad_zeros_interior m m p k_in (i - p) (j - p)) by (done || lia).
           f_equal; lia. }
      rewrite Hcin by lia. simpl andb.
      destruct (Kernel.within_radius inner_diameter (i - p) (j - p)) eqn:Hinner.
      + rewrite (inner_disc_within_outer outer_diameter inner_diameter i j Hpar Hrange)
          by (done || lia).
        reflexivity.
      + by destruct (Kernel.within_radius outer_diameter i j).
    - rewrite (pad_zeros_border m m);
        [| done | by apply rect_cols_square | lia | lia |].
      + simpl andb. by destruct (Kernel.within_radius outer_diameter i j).
      + destruct (p <=? i)%nat eqn:E1; [|apply Nat.leb_gt in E1; lia].
        destruct (i <? p + m)%nat eqn:E2; [|apply Nat.ltb_ge in E2; lia].
        destruct (p <=? j)%nat eqn:E3; [|apply Nat.leb_gt in E3; lia].
        destruct (j <? p + m)%nat eqn:E4; [|apply Nat.ltb_ge in E4; lia].
        discriminate. }
  exists (np_subtract k_out (pad_zeros k_in p)).
  split; [by apply ring_kernel_runs|]. split; [by apply rect_np_map2|]. split.
  - apply (all_cells_intro _ n n); [by apply rect_np_map2|].
    intros i j Hi Hj. rewrite (Hcells i j Hi Hj).
    match goal with |- binary (of_bool ?b) => destruct b end; [by right | by left].
  - exact Hcells.
Qed.

Lemma ring_kernel_is_binary_witness :
  exists k,
    Kernel.ring_kernel 5 3 = Py [] (inr (Some k))
    /\ all_cells binary k
    /\ cell k 0 1 = Fin 1 /\ cell k 2 2 = Fin 0.
Proof.
  destruct (ring_kernel_is_binary 5 3) as (k & Hrun & _ & Hbin & Hcells).
  - reflexivity.
  - lia.
  - exists k. split; [exact Hrun|]. split; [exact Hbin|].
    rewrite (Hcells 0 1)%nat, (Hcells 2 2)%nat by (simpl; lia).
    split; reflexivity.
Defined.

(** X6.  [ring_kernel] has no guard on the order of the diameters: for
    diameters of equal parity with [outer < inner] it prints nothing and
    raises [ValueError], where [square_kernel] prints a message and returns
    [None]. *)
Theorem ring_kernel_outer_below_inner_raises (outer_diameter inner_diameter : Z) :
  Kernel.both_even_or_both_odd outer_diameter inner_diameter = true ->
  (outer_diameter < inner_diameter)%Z ->
  Kernel.ring_kernel outer_diameter inner_diameter = Py [] (inl ValueError)
  /\ Kernel.square_kernel outer_diameter inner_diameter =
       Py [Kernel.diameter_message outer_diameter inner_diameter] (inr None).
Proof.
  intros Hpar Hlt.
  pose proof (same_parity_half _ _ Hpar) as Hhalf. split.
  - unfold Kernel.ring_kernel. rewrite Hpar. simpl negb. cbv iota.
    destruct (Z_lt_le_dec inner_diameter 0) as [Hneg|Hpos].
    + unfold Kernel.circular_kernel.
      assert ((inner_diameter <? 0)%Z = true) as -> by (apply Z.ltb_lt; lia).
      reflexivity.
    + destruct (circular_kernel_plain inner_diameter Hpos) as (k & -> & _).
      unfold np_pad.
      assert (((outer_diameter - inner_diameter) / 2 <? 0)%Z = true) as ->
        by (apply Z.ltb_lt; lia).
      reflexivity.
  - unfold Kernel.square_kernel. rewrite Hpar. simpl negb. cbv iota.
    assert ((outer_diameter <=? inner_diameter)%Z = true) as -> by (apply Z.leb_le; lia).
    reflexivity.
Qed.

Lemma ring_kernel_outer_below_inner_raises_witness :
  Kernel.ring_kernel 3 5 = Py [] (inl ValueError).
Proof.
  destruct (ring_kernel_outer_below_inner_raises 3 5) as [Hring _];
    [reflexivity | lia | exact Hring].
Defined.

(** ** Smooth kernels and the Gaussian growth function *)

Section RealFacts.

Import SmoothRing.
Local Open Scope R_scope.

Lemma exp_neg_unit (x : R) : 0 <= x -> 0 < exp (- x) <= 1.
Proof.
  intros Hx. split; [apply exp_pos|].
  destruct Hx as [Hpos | <-].
  - left. rewrite <- exp_0. apply exp_increasing. lra.
  - rewrite Ropp_0, exp_0. lra.
Qed.

Lemma gaussian_exponent_nonneg (x m s : R) : s <> 0 -> 0 <= (x - m) ^ 2 / (2 * s ^ 2).
Proof.
  intros Hs. apply Rmult_le_pos; [apply pow2_ge_0|].
  left. apply Rinv_0_lt_compat.
  assert (0 < s ^ 2) by nra. lra.
Qed.

(** X7.  For [sigma <> 0] every entry of the smooth ring kernel lies in
    [[0, 1]]. *)
Theorem smooth_ring_kernel_unit_range (d : Z) (mu sigma : R) (i j : nat) :
  sigma <> 0 ->
  (i < Z.to_nat (d + 1))%nat -> (j < Z.to_nat (d + 1))%nat ->
  exists row v,
    smooth_ring_kernel d mu sigma !! i = Some row
    /\ row !! j = Some v
    /\ 0 <= v <= 1.
Proof.
  intros Hs Hi Hj.
  destruct (smooth_ring_kernel_entry d mu sigma i j Hi Hj) as (row & Hrow & _ & Hv).
  eexists _, _. split; [exact Hrow|]. split; [exact Hv|].
  set (D := centre_distance d i j / (IZR d / 2 + 1)).
  pose proof (exp_neg_unit _ (gaussian_exponent_nonneg D mu sigma Hs)) as Hexp.
  unfold lt_one, gaussian. destruct (Rlt_dec D 1); lra.
Qed.

Lemma smooth_ring_kernel_unit_range_witness :
  exists row v,
    smooth_ring_kernel 16 (1 / 2) (15 / 100) !! 3%nat = Some row
    /\ row !! 8%nat = Some v
    /\ 0 <= v <= 1.
Proof.
  apply (smooth_ring_kernel_unit_range 16 (1 / 2) (15 / 100) 3 8);
    [lra | simpl; lia | simpl; lia].
Defined.

Lemma centre_distance_transpose (d : Z) (i j : nat) :
  centre_distance d j i = centre_distance d i j.
Proof. unfold centre_distance. f_equal. ring. Qed.

Lemma centre_distance_flip (d : Z) (i j : nat) :
  (i <= Z.to_nat d)%nat -> (0 <= d)%Z ->
  centre_distance d (Z.to_nat d - i) j = centre_distance d i j.
Proof.
  intros Hi Hd. unfold centre_distance. f_equal.
  rewrite minus_INR by done. rewrite (INR_IZR_INZ (Z.to_nat d)), Z2Nat.id by done.
  field.
Qed.

(** X8.  The smooth ring kernel is symmetric: its entry at [(i, j)] equals
    the entries at [(j, i)], at [(d - i, j)] and at [(i, d - j)]. *)
Theorem smooth_ring_kernel_symmetric (d : Z) (mu sigma : R) (i j : nat) :
  (0 <= d)%Z -> (i <= Z.to_nat d)%nat -> (j <= Z.to_nat d)%nat ->
  let K := smooth_ring_kernel d mu sigma in
  exists v,
    entry K i j = Some v
    /\ entry K j i = Some v
    /\ entry K (Z.to_nat d - i) j = Some v
    /\ entry K i (Z.to_nat d - j) = Some v.
Proof.
  intros Hd Hi Hj K.
  assert (forall a b, (a <= Z.to_nat d)%nat -> (b <= Z.to_nat d)%nat ->
            entry K a b
            = Some (lt_one (centre_distance d a b / (IZR d / 2 + 1))
                    * gaussian (centre_distance d a b / (IZR d / 2 + 1)) mu sigma))
    as Hat.
  { intros a b Ha Hb.
    destruct (smooth_ring_kernel_entry d mu sigma a b) as (row & Hrow & _ & Hv); [lia..|].
    unfold entry, K. rewrite Hrow. exact Hv. }
  eexists. split; [by apply Hat|].
  split; [|split].
  - rewrite Hat by done. by rewrite centre_distance_transpose.
  - rewrite Hat by lia. by rewrite centre_distance_flip.
  - rewrite Hat by lia.
    rewrite <- (centre_distance_transpose d i (Z.to_nat d - j)).
    rewrite centre_distance_flip by done.
    by rewrite centre_distance_transpose.
Qed.

Lemma smooth_ring_kernel_symmetric_witness :
  exists v,
    entry (smooth_ring_kernel 16 (1 / 2) (15 / 100)) 3 5 = Some v
    /\ entry (smooth_ring_kernel 16 (1 / 2) (15 / 100)) 5 3 = Some v
    /\ entry (smooth_ring_kernel 16 (1 / 2) (15 / 100)) 13 5 = Some v.
Proof.
  destruct (smooth_ring_kernel_symmetric 16 (1 / 2) (15 / 100) 3 5)
    as (v & H1 & H2 & H3 & _); [lia | simpl; lia | simpl; lia |].
  exists v. split; [exact H1|]. split; [exact H2 | exact H3].
Defined.





(** X10.  Over the real numbers and for [sigma <> 0], the Gaussian growth
    function takes the value 1 at [U = mu] and is symmetric about [mu]. *)
Theorem growth_gaussian_peak_and_symmetry (mu sigma t : R) :
  sigma <> 0 ->
  RealGrowth.growth_gaussian mu sigma mu = 1
  /\ RealGrowth.growth_gaussian mu sigma (mu + t)
     = RealGrowth.growth_gaussian mu sigma (mu - t).
Proof.
  intros _. unfold RealGrowth.growth_gaussian, RealGrowth.gaussian. split.
  - replace (- ((mu - mu) ^ 2 / (2 * sigma ^ 2))) with 0 by (unfold Rdiv; ring).
    rewrite exp_0. ring.
  - replace ((mu + t - mu) ^ 2) with ((mu - t - mu) ^ 2) by ring. reflexivity.
Qed.

Lemma growth_gaussian_peak_and_symmetry_witness :
  RealGrowth.growth_gaussian (135 / 1000) (15 / 1000) (135 / 1000) = 1
  /\ RealGrowth.growth_gaussian (135 / 1000) (15 / 1000) (135 / 1000 + 1 / 10)
     = RealGrowth.growth_gaussian (135 / 1000) (15 / 1000) (135 / 1000 - 1 / 10).
Proof. apply growth_gaussian_peak_and_symmetry. lra. Defined.

(** X11.  Over the real numbers and for [sigma <> 0], the Gaussian growth
    function takes values in [[-1, 1]]. *)
Theorem growth_gaussian_range (mu sigma U : R) :
  sigma <> 0 ->
  -1 <= RealGrowth.growth_gaussian mu sigma U <= 1.
Proof.
  intros Hs. unfold RealGrowth.growth_gaussian, RealGrowth.gaussian.
  pose proof (exp_neg_unit _ (gaussian_exponent_nonneg U mu sigma Hs)). lra.
Qed.

Lemma growth_gaussian_range_witness :
  -1 <= RealGrowth.growth_gaussian (135 / 1000) (15 / 1000) (1 / 2) <= 1.
Proof. apply growth_gaussian_range. lra. Defined.

End RealFacts.

(** ** Values of the step growth functions *)

Lemma growth_bosco_values (self : Growth_fn.t) (U : np_float) :
  Growth_fn.growth_bosco self U = Fin (-1)
  \/ Growth_fn.growth_bosco self U = Fin 0
  \/ Growth_fn.growth_bosco self U = Fin 1.
Proof.
  unfold Growth_fn.growth_bosco.
  destruct (f_ge U (Growth_fn.b1 self) && f_lt U (Growth_fn.b2 self)),
           (f_lt U (Growth_fn.s1 self) || f_ge U (Growth_fn.s2 self)); auto.
Qed.

Lemma growth_conway_values (self : Growth_fn.t) (U : np_float) :
  Growth_fn.growth_conway self U = Fin (-1)
  \/ Growth_fn.growth_conway self U = Fin 0
  \/ Growth_fn.growth_conway self U = Fin 1.
Proof.
  unfold Growth_fn.growth_conway.
  destruct (f_eqb U (of_Z 3)), (f_lt U (of_Z 2) || f_gt U (of_Z 3)); auto.
Qed.

(** X12.  [growth_bosco] and [growth_conway] return -1, 0 or 1 for every
    input and every choice of thresholds, also for an infinite or NaN
    neighbourhood sum. *)
Theorem step_growth_values (self : Growth_fn.t) (U : np_float) :
  (Growth_fn.growth_bosco self U = Fin (-1)
   \/ Growth_fn.growth_bosco self U = Fin 0
   \/ Growth_fn.growth_bosco self U = Fin 1)
  /\ (Growth_fn.growth_conway self U = Fin (-1)
      \/ Growth_fn.growth_conway self U = Fin 0
      \/ Growth_fn.growth_conway self U = Fin 1).
Proof. split; [apply growth_bosco_values | apply growth_conway_values]. Qed.


Lemma unit_growth_finite_valued (g : Growth_fn.t -> np_float -> np_float) :
  unit_growth g -> finite_valued g.
Proof. intros Hg p u Hu. destruct (Hg p u Hu) as (v & -> & _). exact I. Qed.

(** ** The step: no-op at [dT = 0], bounded change, fixed points *)




(** What one step needs to know about the engine *)
Lemma step_neighbourhood_finite (self : Automaton.t) (H W : nat) (i j : nat) :
  rect H W (Automaton.board self) ->
  all_cells in_unit (Automaton.board self) ->
  normalised (Automaton.kernel self) ->
  (i < H)%nat -> (j < W)%nat ->
  is_finite (conv_at (Automaton.board self) (Automaton.kernel self) i j).
Proof.
  intros Hb Hunit [(kh & kw & Hk) Hsum] Hi Hj.
  apply (conv_at_finite H W kh kw); try done.
  - unfold all_cells in *. eapply Forall_impl; [exact Hunit|].
    intros r Hr. eapply Forall_impl; [exact Hr|]. apply in_unit_finite.
  - by eapply np_sum_finite_inv.
Qed.





(** Two arrays of one shape with equal entries are equal. *)
Lemma rect_ext (H W : nat) (a b : matrix) :
  rect H W a -> rect H W b ->
  (forall i j, (i < H)%nat -> (j < W)%nat -> cell a i j = cell b i j) ->
  a = b.
Proof.
  intros Ha Hb Hcells. apply list_eq. intros i.
  destruct (decide (i < H)%nat) as [Hi|Hi].
  - destruct (rect_row H W a i Ha Hi) as (ra & Hra & Hla).
    destruct (rect_row H W b i Hb Hi) as (rb & Hrb & Hlb).
    rewrite Hra, Hrb. f_equal. apply list_eq. intros j.
    destruct (decide (j < W)%nat) as [Hj|Hj].
    + specialize (Hcells i j Hi Hj). unfold cell in Hcells.
      rewrite Hra, Hrb in Hcells. simpl in Hcells.
      destruct (lookup_lt_is_Some_2 ra j) as [x Hx]; [lia|].
      destruct (lookup_lt_is_Some_2 rb j) as [y Hy]; [lia|].
      rewrite Hx, Hy in *. simpl in Hcells. by f_equal.
    + rewrite !lookup_ge_None_2 by lia. done.
  - destruct Ha as [Hla _], Hb as [Hlb _].
    rewrite !lookup_ge_None_2 by lia. done.
Qed.






(** ** Growth type tags the engine does not know *)

(** X16.  [Automaton.__init__] accepts a growth type tag other than
    ['gaussian'] and ['bosco'] (for instance ['conway']) without complaint,
    but binds no growth function: the first [update_convolutional] raises
    [AttributeError] and returns no board. *)
Theorem init_unknown_growth_type (np_exp : np_float -> np_float)
    (b : Board.t) (k : matrix) (growth_fn : Growth_fn.t)
    (dt : np_float) (colours : string) :
  Growth_fn.type growth_fn <> "gaussian" ->
  Growth_fn.type growth_fn <> "bosco" ->
  exists engine,
    Automaton.init np_exp b k growth_fn dt colours = Py [] (inr engine)
    /\ Automaton.growth engine = None
    /\ Automaton.board engine = Board.board b
    /\ Automaton.update_convolutional engine = Py [] (inl AttributeError).
Proof.
  intros Hg Hb. apply String.eqb_neq in Hg, Hb.
  eexists. split; [|split; [|split]].
  - unfold Automaton.init. rewrite Hg, Hb. reflexivity.
  - reflexivity.
  - reflexivity.
  - reflexivity.
Qed.

Lemma init_unknown_growth_type_witness :
  exists engine,
    Automaton.init (fun x => x)
      {| Board.grid_size := 5; Board.density := Fin (1 # 2);
         Board.initialisation_type := "sparse"; Board.pad := 0;
         Board.seed := None; Board.board := blinker |}
      moore
      {| Growth_fn.b1 := Fin 2; Growth_fn.b2 := Fin 3; Growth_fn.s1 := Fin 2;
         Growth_fn.s2 := Fin 3; Growth_fn.mu := Fin 0; Growth_fn.sigma := Fin 1;
         Growth_fn.type := "conway" |}
      (Fin 1) "viridis" = Py [] (inr engine)
    /\ Automaton.update_convolutional engine = Py [] (inl AttributeError).
Proof.
  destruct (init_unknown_growth_type (fun x => x)
      {| Board.grid_size := 5; Board.density := Fin (1 # 2);
         Board.initialisation_type := "sparse"; Board.pad := 0;
         Board.seed := None; Board.board := blinker |}
      moore
      {| Growth_fn.b1 := Fin 2; Growth_fn.b2 := Fin 3; Growth_fn.s1 := Fin 2;
         Growth_fn.s2 := Fin 3; Growth_fn.mu := Fin 0; Growth_fn.sigma := Fin 1;
         Growth_fn.type := "conway" |}
      (Fin 1) "viridis") as (engine & Hinit & _ & _ & Hrun).
  - discriminate.
  - discriminate.
  - exists engine. split; [exact Hinit | exact Hrun].
Defined.

(** ** Running frames *)

Lemma py_bind_returned {A B : Type} (f : A -> py B) (x : A)
    (out : list string) (r : exn + B) :
  f x = Py out r -> (Py [] (inr x) ≫= f) = Py out r.
Proof. intros Hf. unfold mbind, py_bind. simpl. by rewrite Hf. Qed.

Lemma step_keeps_unit (self : Automaton.t)
    (g : Growth_fn.t -> np_float -> np_float) (H W : nat) :
  Automaton.growth self = Some g ->
  rect H W (Automaton.board self) ->
  all_cells in_unit (Automaton.board self) ->
  normalised (Automaton.kernel self) ->
  finite_growth (Automaton.params self) g ->
  is_finite (Automaton.dT self) ->
  exists b',
    Automaton.update_convolutional self = Py [] (inr (Automaton.set_board self b', b'))
    /\ rect H W b'
    /\ all_cells in_unit b'.
Proof.
  intros Hg Hb Hunit Hk Hfin HdT.
  destruct (update_convolutional_entries self g H W Hg Hb) as (b' & Hrun & Hshape & Hcells).
  exists b'. split; [exact Hrun|]. split; [exact Hshape|].
  apply (all_cells_intro _ H W); [done|].
  intros i j Hi Hj. rewrite (Hcells i j Hi Hj).
  pose proof (step_neighbourhood_finite self H W i j Hb Hunit Hk Hi Hj) as HU.
  pose proof (in_unit_finite _ (all_cells_entry _ H W _ i j Hb Hunit Hi Hj)) as Hbij.
  apply clip_in_unit. intros Hnan.
  assert (is_finite NaN) as Hcontra; [|done].
  rewrite <- Hnan. apply f_add_finite; [done|].
  apply f_mul_finite; [done|]. by apply Hfin.
Qed.

(** X17.  For an engine with a growth function bound, a board in
    [[0, 1]], a normalised kernel, a timestep that is a number and a growth
    function that at the engine's parameters returns a number for every
    number: however many frames are animated, and whatever their numbers,
    the run raises nothing and prints nothing, the kernel, the timestep, the
    growth function and its parameters are left as they were, and the board
    keeps its shape with every value in [[0, 1]]. *)
Theorem run_frames_keeps_unit (frames : list Z) (self : Automaton.t)
    (g : Growth_fn.t -> np_float -> np_float) (H W : nat) :
  Automaton.growth self = Some g ->
  rect H W (Automaton.board self) ->
  all_cells in_unit (Automaton.board self) ->
  normalised (Automaton.kernel self) ->
  finite_growth (Automaton.params self) g ->
  is_finite (Automaton.dT self) ->
  exists final,
    run_frames frames self = Py [] (inr final)
    /\ Automaton.kernel final = Automaton.kernel self
    /\ Automaton.dT final = Automaton.dT self
    /\ Automaton.growth final = Automaton.growth self
    /\ Automaton.params final = Automaton.params self
    /\ rect H W (Automaton.board final)
    /\ all_cells in_unit (Automaton.board final).
Proof.
  revert self. induction frames as [|i rest IH]; intros self Hg Hb Hunit Hk Hfin HdT.
  - exists self. split; [reflexivity|]. do 4 (split; [reflexivity|]). by split.
  - destruct (step_keeps_unit self g H W Hg Hb Hunit Hk Hfin HdT)
      as (b' & Hrun & Hshape & Hunit').
    destruct (IH (Automaton.set_board self b'))
      as (final & Hrest & Hkf & Hdf & Hgf & Hpf & Hsf & Huf); try done.
    exists final. split.
    + assert (Automaton.animate_step self i
              = Py [] (inr (Automaton.set_board self b', b'))) as Hstep
        by (unfold Automaton.animate_step; rewrite Hrun; reflexivity).
      change (run_frames (i :: rest) self)
        with (Automaton.animate_step self i ≫= fun r => run_frames rest (fst r)).
      rewrite Hstep. apply py_bind_returned. exact Hrest.
    + split; [exact Hkf|]. split; [exact Hdf|]. split; [exact Hgf|].
      split; [exact Hpf|]. by split.
Qed.

Lemma run_frames_keeps_unit_witness :
  exists final,
    run_frames [0; 1; 2]%Z example_automaton = Py [] (inr final)
    /\ all_cells in_unit (Automaton.board final).
Proof.
  destruct (run_frames_keeps_unit [0; 1; 2]%Z example_automaton
              Growth_fn.growth_bosco 2 2)
    as (final & Hrun & _ & _ & _ & _ & _ & Hunit).
  - reflexivity.
  - split; [reflexivity | repeat constructor].
  - repeat constructor; vm_compute; discriminate.
  - split; [exists 1%nat, 2%nat; split; [reflexivity | repeat constructor] | reflexivity].
  - exact (growth_bosco_finite_valued _).
  - exact I.
  - exists final. split; [exact Hrun | exact Hunit].
Defined.

(** ** The default update rule *)

Lemma default_rule_cell (c : np_float) (n : nat) :
  binary c -> (n <= 8)%nat ->
  of_bool (truthy (of_bool (f_eqb (of_Z (Z.of_nat n)) (of_Z 3)))
           || truthy (of_bool (truthy c && f_eqb (of_Z (Z.of_nat n)) (of_Z 2))))
  = of_bool (life_rule (alive c) n).
Proof.
  intros [-> | ->] Hn;
    destruct n as [|[|[|[|[|[|[|[|[|n]]]]]]]]]; try lia; vm_compute; reflexivity.
Qed.

Lemma moore_counts (H W : nat) (b : matrix) (i j : nat) :
  rect H W b -> all_cells binary b -> (i < H)%nat -> (j < W)%nat ->
  (live_neighbours b H W i j <= 8)%nat
  /\ conv_at b moore i j = of_Z (Z.of_nat (live_neighbours b H W i j)).
Proof.
  intros Hb Hbin Hi Hj.
  destruct (conv_terms_3x3_neighbours H W b
              (Fin 1) (Fin 1) (Fin 1) (Fin 1) (Fin 0) (Fin 1) (Fin 1) (Fin 1) (Fin 1)
              i j Hb Hi Hj)
    as (x1 & x2 & x3 & x4 & x5 & x6 & x7 & x8 & Hnb & Hterms).
  fold moore in Hterms.
  pose proof (all_cells_entry binary H W _ i j Hb Hbin Hi Hj) as Hc.
  destruct (neighbours_cases H W _ i j Hb Hbin Hi Hj _ _ _ _ _ _ _ _ Hnb)
    as (B1 & B2 & B3 & B4 & B5 & B6 & B7 & B8).
  destruct (moore_conway_cell Growth_fn.init x1 x2 x3 x4 x5 x6 x7 x8
              (cell b i j) B1 B2 B3 B4 B5 B6 B7 B8 Hc) as [HU _].
  unfold live_neighbours, conv_at. rewrite Hnb, Hterms. split; [|exact HU].
  etransitivity; [apply List.filter_length_le|]. simpl. lia.
Qed.

Lemma update_rule_default_cells (self : Automaton.t) (H W : nat) :
  rect H W (Automaton.board self) ->
  all_cells binary (Automaton.board self) ->
  let counts := convolve2d_same_wrap (Automaton.board self) moore in
  rect H W (Automaton.update_rule_default self counts)
  /\ forall i j, (i < H)%nat -> (j < W)%nat ->
       cell (Automaton.update_rule_default self counts) i j
       = of_bool (life_rule (alive (cell (Automaton.board self) i j))
                            (live_neighbours (Automaton.board self) H W i j)).
Proof.
  intros Hb Hbin counts.
  assert (rect H W counts) as Hc by (by apply rect_convolve).
  unfold Automaton.update_rule_default. split.
  - apply rect_np_map2; [by apply rect_np_map | by apply rect_np_map2].
  - intros i j Hi Hj.
    rewrite (cell_np_map2 H W) by
      (try done; first [by apply rect_np_map | by apply rect_np_map2]).
    rewrite (cell_np_map H W), (cell_np_map2 H W) by done.
    unfold counts. rewrite (cell_convolve H W) by done.
    destruct (moore_counts H W _ i j Hb Hbin Hi Hj) as [Hn ->].
    apply default_rule_cell; [|done].
    by apply (all_cells_entry binary H W).
Qed.

(** X18.  Given the neighbour counts of a binary board, that is its
    wrapped convolution with the Moore kernel of [square_kernel(3, 1)],
    [update_rule_default] returns the next generation of the Game of Life:
    1 for a live cell with 2 or 3 live neighbours and for a dead cell with
    exactly 3, and 0 elsewhere. *)
Theorem update_rule_default_is_life (self : Automaton.t) (H W : nat) :
  rect H W (Automaton.board self) ->
  all_cells binary (Automaton.board self) ->
  let counts := convolve2d_same_wrap (Automaton.board self) moore in
  rect H W (Automaton.update_rule_default self counts)
  /\ forall i j, (i < H)%nat -> (j < W)%nat ->
       cell (Automaton.update_rule_default self counts) i j
       = of_bool (life_rule (alive (cell (Automaton.board self) i j))
                            (live_neighbours (Automaton.board self) H W i j)).
Proof. apply update_rule_default_cells. Qed.

Lemma update_rule_default_is_life_witness :
  let self := conway_automaton moore blinker in
  cell (Automaton.update_rule_default self
          (convolve2d_same_wrap (Automaton.board self) moore)) 1 2 = Fin 1
  /\ cell (Automaton.update_rule_default self
             (convolve2d_same_wrap (Automaton.board self) moore)) 2 1 = Fin 0.
Proof.
  intros self.
  destruct (update_rule_default_is_life self 5 5) as [_ Hcells].
  - split; [reflexivity | repeat constructor].
  - repeat (apply Forall_cons_2 || apply Forall_nil_2);
      first [left; reflexivity | right; reflexivity].
  - cbv zeta in Hcells.
    rewrite (Hcells 1%nat 2%nat) by lia. rewrite (Hcells 2%nat 1%nat) by lia.
    split; vm_compute; reflexivity.
Defined.

(** X19.  The convolutional step of the engine that [demo_conway] builds
    (bosco growth with the default thresholds, the normalised Moore kernel,
    [dT = 1]) computes, on a binary board, exactly the board that
    [update_rule_default] computes from the neighbour counts. *)
Theorem demo_conway_step_is_default_rule (np_exp : np_float -> np_float)
    (bd : Board.t) (colours : string) (H W : nat) :
  rect H W (Board.board bd) ->
  all_cells binary (Board.board bd) ->
  exists engine b',
    Automaton.init np_exp bd moore bosco_defaults (of_Z 1) colours
      = Py [] (inr engine)
    /\ Automaton.update_convolutional engine
         = Py [] (inr (Automaton.set_board engine b', b'))
    /\ b' = Automaton.update_rule_default engine
              (convolve2d_same_wrap (Automaton.board engine) moore).
Proof.
  intros Hb Hbin.
  destruct (demo_conway_step_is_life np_exp bd colours H W Hb Hbin)
    as (engine & b' & Hinit & Hk & Hrun & Hshape & Hcells).
  exists engine, b'. split; [exact Hinit|]. split; [exact Hrun|].
  assert (Automaton.board engine = Board.board bd) as Hboard.
  { assert (Automaton.init np_exp bd moore bosco_defaults (of_Z 1) colours
            = Py [] (inr {|
                Automaton.cmap := colours; Automaton.dT := of_Z 1;
                Automaton.kernel := moore_normalised;
                Automaton.norm_factor := Fin (1 # 8);
                Automaton.params := bosco_defaults;
                Automaton.growth := Some Growth_fn.growth_bosco;
                Automaton.board := Board.board bd;
                Automaton.board_shape :=
                  (rows (Board.board bd), cols (Board.board bd))
              |})) as Hexplicit by reflexivity.
    rewrite Hexplicit in Hinit. injection Hinit as <-. reflexivity. }
  rewrite <- Hboard in Hb, Hbin.
  destruct (update_rule_default_cells engine H W Hb Hbin) as [Hshape' Hcells'].
  apply (rect_ext H W); [done | done |].
  intros i j Hi Hj. rewrite (Hcells i j Hi Hj), (Hcells' i j Hi Hj).
  by rewrite Hboard.
Qed.

Lemma demo_conway_step_is_default_rule_witness :
  exists engine b',
    Automaton.init (fun x => x)
      {| Board.grid_size := 5; Board.density := Fin (1 # 2);
         Board.initialisation_type := "sparse"; Board.pad := 0;
         Board.seed := None; Board.board := blinker |}
      moore bosco_defaults (of_Z 1) "viridis" = Py [] (inr engine)
    /\ Automaton.update_convolutional engine
         = Py [] (inr (Automaton.set_board engine b', b'))
    /\ b' = Automaton.update_rule_default engine
              (convolve2d_same_wrap (Automaton.board engine) moore).
Proof.
  apply (demo_conway_step_is_default_rule (fun x => x)
      {| Board.grid_size := 5; Board.density := Fin (1 # 2);
         Board.initialisation_type := "sparse"; Board.pad := 0;
         Board.seed := None; Board.board := blinker |} "viridis" 5 5).
  - split; [reflexivity | repeat constructor].
  - repeat (apply Forall_cons_2 || apply Forall_nil_2);
      first [left; reflexivity | right; reflexivity].
Defined.

(** ** Normalisation and scale *)

Lemma Qsum_scale (c : Q) (l : list np_float) :
  Forall is_finite l ->
  (Qsum (qval <$> (f_mul (Fin c) <$> l)) == c * Qsum (qval <$> l))%Q.
Proof.
  induction l as [|x l IH]; intros Hl; simpl.
  - ring.
  - inversion Hl as [|? ? Hx Hl']; subst.
    destruct (is_finite_inv x Hx) as [a ->]. simpl.
    unfold fmap in *. rewrite IH by done. rewrite Qred_correct. ring.
Qed.

(** X20.  In exact arithmetic, normalisation does not see the scale of the
    kernel: a kernel with positive sum and the same kernel multiplied by a
    positive number normalise to the same weights. *)
Theorem normalise_kernel_scale_invariant (self scaled : Automaton.t) (S c : Q) :
  np_sum (Automaton.kernel self) = Fin S -> (0 < S)%Q -> (0 < c)%Q ->
  Automaton.kernel scaled = np_scale (Fin c) (Automaton.kernel self) ->
  exists s1 k1 s2 k2,
    Automaton.normalise_kernel self = Py [] (inr (s1, k1))
    /\ Automaton.normalise_kernel scaled = Py [] (inr (s2, k2))
    /\ k2 = k1
    /\ Automaton.kernel s2 = Automaton.kernel s1.
Proof.
  intros Hsum HS Hc Hscaled.
  pose proof (np_sum_finite_inv _ _ Hsum) as Hfin.
  assert (Forall is_finite (concat (Automaton.kernel self))) as Hflat
    by (by apply Forall_concat).
  destruct (normalise_kernel_positive self S Hsum HS) as [Hrun1 _].
  assert (np_sum (Automaton.kernel scaled)
          = Fin (Qred (Qsum (qval <$> (f_mul (Fin c) <$> concat (Automaton.kernel self))))))
    as Hsum2.
  { rewrite Hscaled. unfold np_sum, np_scale. rewrite concat_np_map.
    rewrite f_sum_fin; [reflexivity|].
    apply Forall_fmap. eapply Forall_impl; [exact Hflat|].
    intros x Hx. by apply (f_mul_finite (Fin c) x). }
  set (S2 := Qred (Qsum (qval <$> (f_mul (Fin c) <$> concat (Automaton.kernel self))))) in *.
  assert (S2 == c * S)%Q as HS2.
  { unfold S2. rewrite Qred_correct, Qsum_scale by done.
    by rewrite <- (f_sum_value _ _ Hsum). }
  assert (0 < S2)%Q as HS2pos by (rewrite HS2; nra).
  destruct (normalise_kernel_positive scaled S2 Hsum2 HS2pos) as [Hrun2 _].
  assert (np_map (fun w => fin (qval w / S2)) (Automaton.kernel scaled)
          = np_map (fun w => fin (qval w / S)) (Automaton.kernel self)) as Hsame.
  { rewrite Hscaled. unfold np_scale. rewrite np_map_np_map.
    apply (np_map_ext is_finite); [done|].
    intros x Hx. destruct (is_finite_inv x Hx) as [a ->]. simpl.
    apply fin_eq. rewrite Qred_correct, HS2. field.
    split; by apply Qpos_nonzero. }
  rewrite Hsame in Hrun2.
  eexists _, _, _, _. split; [exact Hrun1|]. split; [exact Hrun2|]. by split.
Qed.

Lemma normalise_kernel_scale_invariant_witness :
  exists s1 k1 s2 k2,
    Automaton.normalise_kernel (with_kernel moore) = Py [] (inr (s1, k1))
    /\ Automaton.normalise_kernel (with_kernel (np_scale (Fin 3) moore))
       = Py [] (inr (s2, k2))
    /\ k2 = k1.
Proof.
  destruct (normalise_kernel_scale_invariant (with_kernel moore)
              (with_kernel (np_scale (Fin 3) moore)) 8 3)
    as (s1 & k1 & s2 & k2 & H1 & H2 & Hk & _).
  - reflexivity.
  - reflexivity.
  - reflexivity.
  - reflexivity.
  - exists s1, k1, s2, k2. split; [exact H1|]. split; [exact H2 | exact Hk].
Defined.

(** ** The step and translations of the torus *)

Lemma wrap_index_shift (x d : Z) (n : nat) :
  (0 < n)%nat ->
  wrap_index (Z.of_nat (wrap_index x n) + d) n = wrap_index (x + d) n.
Proof.
  intros Hn. unfold wrap_index.
  rewrite Z2Nat.id by (apply Z.mod_pos_bound; lia).
  by rewrite Zplus_mod_idemp_l.
Qed.

Lemma conv_at_shift (H W : nat) (di dj : Z) (b shifted k : matrix) (i j : nat) :
  rect H W b -> torus_shift H W di dj b shifted ->
  (i < H)%nat -> (j < W)%nat ->
  conv_at shifted k i j
  = conv_at b k (wrap_index (Z.of_nat i + di) H) (wrap_index (Z.of_nat j + dj) W).
Proof.
  intros Hb [Hs Hcells] Hi Hj.
  assert (0 < H)%nat as HH by lia. assert (0 < W)%nat as HW by lia.
  unfold conv_at, conv_terms.
  rewrite (rect_rows _ _ _ Hs), (rect_cols _ _ _ Hs HH),
          (rect_rows _ _ _ Hb), (rect_cols _ _ _ Hb HH).
  f_equal. apply list_bind_ext; [|done]. intros m.
  apply list_bind_ext; [|done]. intros n.
  rewrite Hcells by (by apply wrap_index_lt).
  rewrite !wrap_index_shift by done.
  do 3 f_equal.
  - replace (Z.of_nat (wrap_index (Z.of_nat i + di) H) + Z.of_nat ((rows k - 1) / 2)
             - Z.of_nat m)%Z
      with (Z.of_nat (wrap_index (Z.of_nat i + di) H)
            + (Z.of_nat ((rows k - 1) / 2) - Z.of_nat m))%Z by lia.
    rewrite wrap_index_shift by done. f_equal. lia.
  - replace (Z.of_nat (wrap_index (Z.of_nat j + dj) W) + Z.of_nat ((cols k - 1) / 2)
             - Z.of_nat n)%Z
      with (Z.of_nat (wrap_index (Z.of_nat j + dj) W)
            + (Z.of_nat ((cols k - 1) / 2) - Z.of_nat n))%Z by lia.
    rewrite wrap_index_shift by done. f_equal. lia.
Qed.

(** X21.  The step commutes with translations of the torus: stepping a
    board moved by [(di, dj)] around the torus gives the stepped board moved
    by [(di, dj)], for every kernel, growth function and timestep. *)
Theorem update_convolutional_shift_equivariant (self : Automaton.t)
    (g : Growth_fn.t -> np_float -> np_float) (H W : nat) (di dj : Z)
    (shifted : matrix) :
  Automaton.growth self = Some g ->
  rect H W (Automaton.board self) ->
  torus_shift H W di dj (Automaton.board self) shifted ->
  exists b' s',
    Automaton.update_convolutional self
      = Py [] (inr (Automaton.set_board self b', b'))
    /\ Automaton.update_convolutional (Automaton.set_board self shifted)
       = Py [] (inr (Automaton.set_board self s', s'))
    /\ torus_shift H W di dj b' s'.
Proof.
  intros Hg Hb Hshift.
  destruct (update_convolutional_entries self g H W Hg Hb)
    as (b' & Hrun & Hshape & Hcells).
  destruct (update_convolutional_entries (Automaton.set_board self shifted) g H W Hg
              (proj1 Hshift))
    as (s' & Hrun' & Hshape' & Hcells').
  exists b', s'. split; [exact Hrun|]. split; [exact Hrun'|].
  split; [exact Hshape'|].
  intros i j Hi Hj.
  rewrite (Hcells' i j Hi Hj).
  rewrite Hcells by (apply wrap_index_lt; lia).
  simpl.
  rewrite (conv_at_shift H W di dj (Automaton.board self)) by done.
  by rewrite (proj2 Hshift i j Hi Hj).
Qed.

Lemma update_convolutional_shift_equivariant_witness :
  exists b' s',
    Automaton.update_convolutional example_automaton
      = Py [] (inr (Automaton.set_board example_automaton b', b'))
    /\ Automaton.update_convolutional
         (Automaton.set_board example_automaton
            [[Fin (1 # 4); Fin 1]; [Fin (1 # 2); Fin 0]])
       = Py [] (inr (Automaton.set_board example_automaton s', s'))
    /\ torus_shift 2 2 1 1 b' s'.
Proof.
  apply (update_convolutional_shift_equivariant example_automaton
           Growth_fn.growth_bosco 2 2 1 1).
  - reflexivity.
  - split; [reflexivity | repeat constructor].
  - split; [split; [reflexivity | repeat constructor]|].
    intros [|[|i]] [|[|j]] Hi Hj; try lia; reflexivity.
Defined.

(** ** The range of the neighbourhood sums *)

Lemma bind_singleton_fmap {A B : Type} (f : A -> B) (l : list A) :
  (l ≫= fun x => [f x]) = f <$> l.
Proof. induction l as [|x l IH]; [done|]. rewrite bind_cons, IH. done. Qed.

Lemma bind_concat_fmap {A B : Type} (f : A -> list B) (l : list A) :
  l ≫= f = concat (f <$> l).
Proof. induction l as [|x l IH]; [done|]. rewrite bind_cons, IH. done. Qed.

Lemma Forall2_concat_rows {A B : Type} (P : A -> B -> Prop)
    (ls : list (list A)) (ks : list (list B)) :
  Forall2 (Forall2 P) ls ks -> Forall2 P (concat ls) (concat ks).
Proof. induction 1; simpl; [constructor | by apply Forall2_app]. Qed.

(** The summands of a neighbourhood sum, set against the kernel entries in
    row-major order: each is a kernel entry times a board entry. *)
Lemma conv_terms_weights (H W kh kw : nat) (b k : matrix) (i j : nat) :
  rect H W b -> all_cells in_unit b -> rect kh kw k ->
  (i < H)%nat -> (j < W)%nat ->
  Forall2 (fun t w => exists x, in_unit x /\ t = f_mul w x)
          (conv_terms b k i j) (concat k).
Proof.
  intros Hb Hunit Hk Hi Hj. unfold conv_terms.
  rewrite bind_concat_fmap. apply Forall2_concat_rows.
  rewrite (rect_rows _ _ _ Hk), (rect_rows _ _ _ Hb), (rect_cols _ _ _ Hb) by lia.
  apply Forall2_same_length_lookup_2.
  { rewrite length_fmap, length_seq. by destruct Hk. }
  intros m ts row Hts Hrow.
  rewrite list_lookup_fmap in Hts.
  destruct (seq 0 kh !! m) as [m'|] eqn:Hm; [|done].
  apply lookup_seq in Hm as [-> Hm]. simpl in Hts. inversion Hts; subst ts; clear Hts.
  rewrite (rect_cols _ _ _ Hk) by lia.
  rewrite bind_singleton_fmap.
  assert (length row = kw) as Hlen.
  { destruct Hk as [_ Hall]. rewrite Forall_lookup in Hall. by apply (Hall m). }
  apply Forall2_same_length_lookup_2.
  { by rewrite length_fmap, length_seq. }
  intros n t w Ht Hw.
  rewrite list_lookup_fmap in Ht.
  destruct (seq 0 kw !! n) as [n'|] eqn:Hn; [|done].
  apply lookup_seq in Hn as [-> Hn]. simpl in Ht. inversion Ht; subst t; clear Ht.
  assert (cell k m n = w) as ->.
  { unfold cell. rewrite Hrow. simpl. by rewrite Hw. }
  eexists. split; [|reflexivity].
  apply (all_cells_entry _ H W); [done..| |]; apply wrap_index_lt; lia.
Qed.

Lemma weighted_sum_bounds (ts ws : list np_float) :
  Forall2 (fun t w => exists x, in_unit x /\ t = f_mul w x) ts ws ->
  Forall non_negative ws ->
  Forall is_finite ts
  /\ (0 <= Qsum (qval <$> ts) /\ Qsum (qval <$> ts) <= Qsum (qval <$> ws))%Q.
Proof.
  induction 1 as [|t w ts ws (x & Hx & ->) _ IH]; intros Hws.
  - split; [constructor|]. simpl. split; apply Qle_refl.
  - inversion Hws as [|? ? Hw Hws']; subst.
    destruct (IH Hws') as (Hfin & Hlo & Hhi).
    destruct w as [w| |]; try done. destruct x as [x| |]; try done.
    simpl in Hw, Hx. destruct Hx as [Hx0 Hx1].
    split; [by constructor|].
    simpl. unfold fmap in *. rewrite Qred_correct.
    assert (0 <= w * x)%Q by (by apply Qmult_le_0_compat).
    assert (w * x <= w)%Q by nra.
    split; lra.
Qed.

(** X22.  With the board in [[0, 1]] and a normalised kernel that has no
    negative entry, every neighbourhood sum that the step hands to the
    growth function lies in [[0, 1]]. *)
Theorem neighbourhood_sums_in_unit (self : Automaton.t) (H W : nat) (i j : nat) :
  rect H W (Automaton.board self) ->
  all_cells in_unit (Automaton.board self) ->
  normalised (Automaton.kernel self) ->
  all_cells non_negative (Automaton.kernel self) ->
  (i < H)%nat -> (j < W)%nat ->
  in_unit (cell (convolve2d_same_wrap (Automaton.board self) (Automaton.kernel self)) i j).
Proof.
  intros Hb Hunit [(kh & kw & Hk) Hsum] Hpos Hi Hj.
  rewrite (cell_convolve H W) by done.
  pose proof (conv_terms_weights H W kh kw _ _ i j Hb Hunit Hk Hi Hj) as Hterms.
  destruct (weighted_sum_bounds _ _ Hterms) as (Hfin & Hlo & Hhi).
  { by apply Forall_concat. }
  unfold conv_at. rewrite (f_sum_fin _ Hfin). unfold fin. simpl.
  rewrite Qred_correct.
  apply f_sum_value in Hsum. rewrite <- Hsum in Hhi. by split.
Qed.

Lemma neighbourhood_sums_in_unit_witness :
  in_unit (cell (convolve2d_same_wrap (Automaton.board example_automaton)
                   (Automaton.kernel example_automaton)) 1 0).
Proof.
  apply (neighbourhood_sums_in_unit example_automaton 2 2 1 0).
  - split; [reflexivity | repeat constructor].
  - repeat constructor; vm_compute; discriminate.
  - split; [exists 1%nat, 2%nat; split; [reflexivity | repeat constructor] | reflexivity].
  - repeat constructor; vm_compute; discriminate.
  - lia.
  - lia.
Defined.

Lemma Qsum_nonneg (l : list np_float) :
  Forall non_negative l -> (0 <= Qsum (qval <$> l))%Q.
Proof.
  induction 1 as [|x l Hx _ IH]; simpl; [apply Qle_refl|].
  destruct x as [a| |]; try done. simpl in *. unfold fmap in *. lra.
Qed.

Lemma Qsum_bounds_members (l : list np_float) :
  Forall non_negative l ->
  Forall (fun x => non_negative x /\ (qval x <= Qsum (qval <$> l))%Q) l.
Proof.
  induction 1 as [|x l Hx Hl IH]; [constructor|].
  pose proof (Qsum_nonneg l Hl) as Hsum.
  destruct x as [a| |]; try done. simpl in Hx.
  constructor.
  - split; [done|]. simpl. unfold fmap in *. lra.
  - eapply Forall_impl; [exact IH|]. intros y [Hy Hle]. split; [done|].
    simpl. unfold fmap in *. lra.
Qed.

(** X23.  Normalising a kernel that has no negative entry and a positive
    sum gives weights that all lie in [[0, 1]]. *)
Theorem normalise_kernel_weights_in_unit (self : Automaton.t) (S : Q) :
  all_cells non_negative (Automaton.kernel self) ->
  np_sum (Automaton.kernel self) = Fin S -> (0 < S)%Q ->
  exists self' k',
    Automaton.normalise_kernel self = Py [] (inr (self', k'))
    /\ Automaton.kernel self' = k'
    /\ all_cells in_unit k'.
Proof.
  intros Hpos Hsum HS.
  destruct (normalise_kernel_positive self S Hsum HS) as [Hrun _].
  eexists _, _. split; [exact Hrun|]. split; [reflexivity|].
  apply f_sum_value in Hsum.
  assert (Forall non_negative (concat (Automaton.kernel self))) as Hflat
    by (by apply Forall_concat).
  apply Qsum_bounds_members in Hflat. apply Forall_concat in Hflat.
  unfold all_cells, np_map. apply Forall_fmap.
  eapply Forall_impl; [exact Hflat|]. intros row Hrow. simpl.
  apply Forall_fmap. eapply Forall_impl; [exact Hrow|].
  intros [a| |] [Ha Hle]; try done. simpl in *.
  rewrite <- Hsum in Hle. rewrite Qred_correct.
  split.
  - apply Qle_shift_div_l; [done|]. lra.
  - apply Qle_shift_div_r; [done|]. lra.
Qed.

Lemma normalise_kernel_weights_in_unit_witness :
  exists self' k',
    Automaton.normalise_kernel (with_kernel moore) = Py [] (inr (self', k'))
    /\ Automaton.kernel self' = k'
    /\ all_cells in_unit k'.
Proof.
  apply (normalise_kernel_weights_in_unit (with_kernel moore) 8).
  - repeat constructor; vm_compute; discriminate.
  - reflexivity.
  - reflexivity.
Defined.

(** ** Validation of the arguments *)

Lemma py_bind_ret {A B : Type} (x : A) (f : A -> py B) : (mret x ≫= f) = f x.
Proof. unfold mret, py_ret, mbind, py_bind. simpl. by destruct (f x). Qed.

Lemma getitem_returns (args : Lenia.dict) (key : string) (B : Type) (f : Lenia.value -> py B) (r : B) :
  outcome (Lenia.getitem args key ≫= f) = inr r ->
  exists v, args !! key = Some v /\ Lenia.getitem args key ≫= f = f v.
Proof.
  unfold Lenia.getitem. destruct (args !! key) as [v|]; [|done].
  intros _. exists v. split; [done|]. apply py_bind_ret.
Qed.

Lemma not_None_false (v : Lenia.value) : Lenia.not_None v = false -> v = Lenia.VNone.
Proof. by destruct v. Qed.

Section ValidateFacts.
Variable float_of_str : string -> option np_float.

Lemma check_numeric_returned (names : list string) (args d : Lenia.dict) :
  NoDup names ->
  outcome (Lenia.check_numeric float_of_str names args) = inr (inr d) ->
  stdout (Lenia.check_numeric float_of_str names args) = []
  /\ (forall k, k ∉ names -> d !! k = args !! k)
  /\ (forall k, k ∈ names ->
        exists v, args !! k = Some v /\ numeric_cleaned float_of_str v (d !! k)).
Proof.
  intros Hnd. revert args. induction Hnd as [|arg rest Hnotin Hnd IH]; intros args Hret.
  - simpl in Hret. inversion Hret; subst d. split; [done|]. split; [done|].
    intros k Hk. by apply elem_of_nil in Hk.
  - cbn [Lenia.check_numeric] in *.
    destruct (getitem_returns _ _ _ _ _ Hret) as (v & Hv & Heq).
    rewrite Heq in *. clear Heq.
    destruct (Lenia.not_None v) eqn:Hnone.
    + destruct (outcome (Lenia.py_float float_of_str v)) as [e|x] eqn:Hfloat.
      * destruct (Lenia.exn_eqb e ValueError); simpl in Hret; done.
      * cbv zeta in *. destruct (f_lt x (of_Z 0)) eqn:Hneg; [simpl in Hret; done|].
        destruct (IH _ Hret) as (Hout & Hframe & Hclean).
        split; [done|]. split.
        -- intros k Hk. apply not_elem_of_cons in Hk as [Hne Hk].
           rewrite (Hframe k Hk). by rewrite lookup_insert_ne.
        -- intros k Hk. apply elem_of_cons in Hk as [->|Hk].
           ++ exists v. split; [done|]. right. exists x.
              split; [done|]. split; [done|].
              rewrite (Hframe arg Hnotin). by rewrite lookup_insert_eq.
           ++ destruct (Hclean k Hk) as (w & Hw & Hc).
              rewrite lookup_insert_ne in Hw by (intros ->; done).
              by exists w.
    + apply not_None_false in Hnone. subst v.
      destruct (IH _ Hret) as (Hout & Hframe & Hclean).
      split; [done|]. split.
      * intros k Hk. apply not_elem_of_cons in Hk as [Hne Hk]. by apply Hframe.
      * intros k Hk. apply elem_of_cons in Hk as [->|Hk].
        -- exists Lenia.VNone. split; [done|]. left. split; [done|].
           by rewrite (Hframe arg Hnotin).
        -- by apply Hclean.
Qed.

Lemma existsb_false_Forall {A : Type} (p : A -> bool) (l : list A) :
  existsb p l = false <-> Forall (fun x => p x = false) l.
Proof.
  induction l as [|x l IH]; simpl.
  - split; [constructor | done].
  - rewrite orb_false_iff, IH. split.
    + intros [? ?]. by constructor.
    + by inversion 1.
Qed.

Lemma check_peaks_returned (args d : Lenia.dict) :
  outcome (Lenia.check_peaks float_of_str args) = inr (Lenia.ReturnedArgs d) ->
  stdout (Lenia.check_peaks float_of_str args) = []
  /\ (forall k, k <> "kernel_peaks" -> d !! k = args !! k)
  /\ exists v, args !! "kernel_peaks" = Some v
               /\ peaks_cleaned float_of_str v (d !! "kernel_peaks").
Proof.
  unfold Lenia.check_peaks. intros Hret.
  destruct (getitem_returns _ _ _ _ _ Hret) as (v & Hv & Heq).
  rewrite Heq in *. clear Heq.
  destruct (Lenia.not_None v) eqn:Hnone.
  - destruct (Lenia.py_iter v) as [out [e|items]] eqn:Hiter; [done|].
    assert (out = []) as -> by (destruct v; simpl in Hiter; by inversion Hiter).
    change (Py [] (inr items)) with (mret items : py _) in Hret |- *.
    rewrite py_bind_ret in *.
    destruct (outcome (Lenia.floats float_of_str items)) as [e|xs] eqn:Hfloats.
    + destruct (Lenia.exn_eqb e ValueError); simpl in Hret; done.
    + cbv zeta in *.
      destruct (existsb _ xs) eqn:Hrange; [simpl in Hret; done|].
      simpl in Hret. inversion Hret; subst d. split; [done|]. split.
      * intros k Hk. by rewrite lookup_insert_ne.
      * exists v. split; [done|]. right. exists items, xs.
        rewrite Hiter. split; [done|]. split; [done|]. split.
        -- apply existsb_false_Forall in Hrange.
           eapply Forall_impl; [exact Hrange|]. intros x Hx. simpl in Hx.
           by apply orb_false_iff in Hx.
        -- by rewrite lookup_insert_eq.
  - apply not_None_false in Hnone. subst v. simpl in Hret. inversion Hret; subst d.
    split; [done|]. split; [done|].
    exists Lenia.VNone. split; [done|]. by left.
Qed.

Lemma NUMERIC_ARGS_NoDup : NoDup Lenia.NUMERIC_ARGS.
Proof. by apply (bool_decide_unpack _). Qed.

Lemma kernel_peaks_not_numeric : "kernel_peaks" ∉ Lenia.NUMERIC_ARGS.
Proof. by apply (bool_decide_unpack _). Qed.

Lemma validate_args_returned (args d : Lenia.dict) :
  outcome (Lenia.validate_args float_of_str args) = inr (Lenia.ReturnedArgs d) ->
  stdout (Lenia.validate_args float_of_str args) = []
  /\ (forall k, k ∈ Lenia.NUMERIC_ARGS ->
        exists v, args !! k = Some v /\ numeric_cleaned float_of_str v (d !! k))
  /\ (exists v, args !! "kernel_peaks" = Some v
                /\ peaks_cleaned float_of_str v (d !! "kernel_peaks"))
  /\ (forall k, k ∉ Lenia.NUMERIC_ARGS -> k <> "kernel_peaks" -> d !! k = args !! k).
Proof.
  unfold Lenia.validate_args. intros Hret.
  destruct (Lenia.check_numeric float_of_str Lenia.NUMERIC_ARGS args)
    as [out [e|[left_as|d1]]] eqn:Hloop; try done.
  destruct (check_numeric_returned Lenia.NUMERIC_ARGS args d1
              NUMERIC_ARGS_NoDup) as (Hout & Hframe & Hclean).
  { by rewrite Hloop. }
  rewrite Hloop in Hout. simpl in Hout. subst out.
  change (Py [] (inr (inr d1))) with (mret (inr d1) : py (Lenia.dict + Lenia.dict)) in Hret |- *.
  rewrite py_bind_ret in *.
  destruct (check_peaks_returned _ _ Hret) as (Hout2 & Hframe2 & Hpeaks).
  split; [done|]. split; [|split].
  - intros k Hk. destruct (Hclean k Hk) as (v & Hv & Hc). exists v. split; [done|].
    rewrite Hframe2; [done|]. intros ->. by apply kernel_peaks_not_numeric.
  - destruct Hpeaks as (v & Hv & Hc). exists v. split; [|done].
    rewrite <- Hv. symmetry. apply Hframe, kernel_peaks_not_numeric.
  - intros k Hk Hne. rewrite Hframe2 by done. by apply Hframe.
Qed.

Lemma numeric_cleaned_clean (v : Lenia.value) (o : option Lenia.value) :
  numeric_cleaned float_of_str v o -> clean_number o.
Proof. intros [[_ ->]|(x & _ & Hx & ->)]; [by left | right; by exists x]. Qed.

Lemma peaks_cleaned_clean (v : Lenia.value) (o : option Lenia.value) :
  peaks_cleaned float_of_str v o -> clean_peaks o.
Proof. intros [[_ ->]|(items & xs & _ & _ & Hx & ->)]; [by left | right; by exists xs]. Qed.

Lemma getitem_present (args : Lenia.dict) (key : string) (v : Lenia.value) :
  args !! key = Some v -> Lenia.getitem args key = mret v.
Proof. unfold Lenia.getitem. by intros ->. Qed.

Lemma check_numeric_clean (names : list string) (d : Lenia.dict) :
  (forall k, k ∈ names -> clean_number (d !! k)) ->
  Lenia.check_numeric float_of_str names d = Py [] (inr (inr d)).
Proof.
  induction names as [|arg rest IH]; intros Hclean; [done|].
  cbn [Lenia.check_numeric].
  assert (Lenia.check_numeric float_of_str rest d = Py [] (inr (inr d))) as Hrest.
  { apply IH. intros k Hk. apply Hclean. by right. }
  destruct (Hclean arg) as [Hv|(x & Hv & Hx)]; [by left| |].
  - rewrite (getitem_present _ _ _ Hv), py_bind_ret. simpl. exact Hrest.
  - rewrite (getitem_present _ _ _ Hv), py_bind_ret. simpl.
    rewrite Hx. rewrite (insert_id d arg _ Hv). exact Hrest.
Qed.

Lemma floats_of_numbers (xs : list np_float) :
  Lenia.floats float_of_str (Lenia.VNum <$> xs) = Py [] (inr xs).
Proof.
  induction xs as [|x xs IH]; [done|].
  rewrite fmap_cons. cbn [Lenia.floats]. cbn [Lenia.py_float].
  rewrite py_bind_ret, IH.
  change (Py [] (inr xs)) with (mret xs : py (list np_float)).
  by rewrite py_bind_ret.
Qed.

Lemma check_peaks_clean (d : Lenia.dict) :
  clean_peaks (d !! "kernel_peaks") ->
  Lenia.check_peaks float_of_str d = Py [] (inr (Lenia.ReturnedArgs d)).
Proof.
  unfold Lenia.check_peaks. intros [Hv|(xs & Hv & Hrange)].
  - by rewrite (getitem_present _ _ _ Hv), py_bind_ret.
  - rewrite (getitem_present _ _ _ Hv), py_bind_ret.
    cbn [Lenia.not_None Lenia.py_iter].
    rewrite py_bind_ret, floats_of_numbers. cbn [outcome]. cbv zeta.
    rewrite (insert_id d _ _ Hv).
    replace (existsb _ xs) with false; [done|].
    symmetry. apply existsb_false_Forall.
    eapply Forall_impl; [exact Hrange|]. intros x [H0 H1].
    cbv beta. by rewrite H0, H1.
Qed.

Lemma validate_args_clean (d : Lenia.dict) :
  (forall k, k ∈ Lenia.NUMERIC_ARGS -> clean_number (d !! k)) ->
  clean_peaks (d !! "kernel_peaks") ->
  Lenia.validate_args float_of_str d = Py [] (inr (Lenia.ReturnedArgs d)).
Proof.
  intros Hnum Hpeaks. unfold Lenia.validate_args.
  rewrite (check_numeric_clean _ _ Hnum).
  change (Py [] (inr (inr d))) with (mret (inr d) : py (Lenia.dict + Lenia.dict)).
  rewrite py_bind_ret. by apply check_peaks_clean.
Qed.


(** X25.  Validation is idempotent: a dictionary that [validate_args] has
    returned passes a second validation unchanged and without output. *)
Theorem validate_args_idempotent (args d : Lenia.dict) :
  returns (Lenia.validate_args float_of_str args) (Lenia.ReturnedArgs d) ->
  Lenia.validate_args float_of_str d = Py [] (inr (Lenia.ReturnedArgs d)).
Proof.
  intros Hret. destruct (validate_args_returned _ _ Hret) as (_ & Hnum & Hpeaks & _).
  apply validate_args_clean.
  - intros k Hk. destruct (Hnum k Hk) as (v & _ & Hc). by eapply numeric_cleaned_clean.
  - destruct Hpeaks as (v & _ & Hc). by eapply peaks_cleaned_clean.
Qed.

Lemma py_float_raises (v : Lenia.value) (e : exn) :
  outcome (Lenia.py_float float_of_str v) = inl e ->
  Lenia.exn_eqb e ValueError = false -> e = TypeError.
Proof.
  destruct v as [|b|x|s|l]; simpl; try (by inversion 1).
  destruct (float_of_str s); simpl; [done|]. by intros [= <-].
Qed.

Lemma floats_raises (items : list Lenia.value) (e : exn) :
  outcome (Lenia.floats float_of_str items) = inl e ->
  Lenia.exn_eqb e ValueError = false -> e = TypeError.
Proof.
  induction items as [|i rest IH]; [done|].
  cbn [Lenia.floats].
  destruct (Lenia.py_float float_of_str i) as [out [e'|x]] eqn:Hi.
  - simpl. intros [= <-]. apply (py_float_raises i). by rewrite Hi.
  - assert (out = []) as ->.
    { destruct i; simpl in Hi; try (by inversion Hi).
      destruct (float_of_str s); by inversion Hi. }
    change (Py [] (inr x)) with (mret x : py np_float). rewrite py_bind_ret.
    destruct (Lenia.floats float_of_str rest) as [out' [e'|xs]]; simpl.
    + intros [= <-]. by apply IH.
    + done.
Qed.

Lemma check_numeric_shape (names : list string) (args : Lenia.dict) :
  let run := Lenia.check_numeric float_of_str names args in
  match outcome run with
  | inl e => stdout run = [] /\ (e = KeyError \/ e = TypeError)
  | inr (inl _) => exists line, stdout run = [line]
  | inr (inr _) => stdout run = []
  end.
Proof.
  cbv zeta. revert args. induction names as [|arg rest IH]; intros args; [done|].
  cbn [Lenia.check_numeric]. unfold Lenia.getitem.
  destruct (args !! arg) as [v|]; [|split; [done | by left]].
  rewrite py_bind_ret.
  destruct (Lenia.not_None v); [|apply IH].
  destruct (outcome (Lenia.py_float float_of_str v)) as [e|x] eqn:Hfloat.
  - destruct (Lenia.exn_eqb e ValueError) eqn:He.
    + by eexists.
    + split; [done|]. right. by apply (py_float_raises v).
  - cbv zeta. destruct (f_lt x (of_Z 0)); [by eexists | apply IH].
Qed.

(** X26.  [validate_args] prints one line exactly when it returns [-1] and
    nothing otherwise, and no [ValueError] leaves it: what it raises is a
    [KeyError] (a key is missing) or a [TypeError] (a value that [float]
    or the iteration over the peaks does not take). *)
Theorem validate_args_outcomes (args : Lenia.dict) :
  let run := Lenia.validate_args float_of_str args in
  match outcome run with
  | inl e => stdout run = [] /\ (e = KeyError \/ e = TypeError)
  | inr (Lenia.ReturnedMinusOne _) => exists line, stdout run = [line]
  | inr (Lenia.ReturnedArgs _) => stdout run = []
  end.
Proof.
  cbv zeta. unfold Lenia.validate_args.
  pose proof (check_numeric_shape Lenia.NUMERIC_ARGS args) as Hloop.
  cbv zeta in Hloop.
  destruct (Lenia.check_numeric float_of_str Lenia.NUMERIC_ARGS args)
    as [out [e|[left_as|d1]]]; simpl in Hloop.
  - exact Hloop.
  - destruct Hloop as [line ->]. by exists line.
  - subst out.
    change (Py [] (inr (inr d1))) with (mret (inr d1) : py (Lenia.dict + Lenia.dict)).
    rewrite py_bind_ret.
    unfold Lenia.check_peaks, Lenia.getitem.
    destruct (d1 !! "kernel_peaks") as [v|]; [|split; [done | by left]].
    rewrite py_bind_ret.
    destruct (Lenia.not_None v); [|done].
    destruct (Lenia.py_iter v) as [out [e|items]] eqn:Hiter.
    + destruct v; simpl in Hiter; inversion Hiter; subst; split; try done; by right.
    + assert (out = []) as -> by (destruct v; simpl in Hiter; by inversion Hiter).
      change (Py [] (inr items)) with (mret items : py _).
      rewrite py_bind_ret.
      destruct (outcome (Lenia.floats float_of_str items)) as [e|xs] eqn:Hfloats.
      * destruct (Lenia.exn_eqb e ValueError) eqn:He.
        -- by eexists.
        -- split; [done|]. right. by apply (floats_raises items).
      * cbv zeta. destruct (existsb _ xs); [by eexists | done].
Qed.

Lemma numeric_cleaned_not_None (v : Lenia.value) (x : np_float) :
  outcome (Lenia.py_float float_of_str v) = inr x -> Lenia.not_None v = true.
Proof. by destruct v. Qed.

Lemma check_numeric_accepts (names : list string) (args : Lenia.dict) :
  NoDup names ->
  (forall k, k ∈ names ->
     exists v now, args !! k = Some v /\ numeric_cleaned float_of_str v now) ->
  exists d,
    Lenia.check_numeric float_of_str names args = Py [] (inr (inr d))
    /\ forall k, k ∉ names -> d !! k = args !! k.
Proof.
  intros Hnd. revert args.
  induction Hnd as [|arg rest Hnotin Hnd IH]; intros args Hok.
  - by exists args.
  - cbn [Lenia.check_numeric].
    destruct (Hok arg) as (v & now & Hv & Hc); [by left|].
    rewrite (getitem_present _ _ _ Hv), py_bind_ret.
    destruct Hc as [[-> _]|(x & Hx & Hneg & _)].
    + cbn [Lenia.not_None].
      destruct (IH args) as (d & Hrun & Hframe).
      { intros k Hk. apply Hok. by right. }
      exists d. split; [exact Hrun|].
      intros k Hk. apply not_elem_of_cons in Hk as [_ Hk]. by apply Hframe.
    + rewrite (numeric_cleaned_not_None v x Hx), Hx. cbv zeta. rewrite Hneg.
      destruct (IH (<[arg := Lenia.VNum x]> args)) as (d & Hrun & Hframe).
      { intros k Hk. rewrite lookup_insert_ne by (intros ->; done).
        apply Hok. by right. }
      exists d. split; [exact Hrun|].
      intros k Hk. apply not_elem_of_cons in Hk as [Hne Hk].
      rewrite (Hframe k Hk). by rewrite lookup_insert_ne.
Qed.

Lemma check_numeric_app (before rest : list string) (args args1 : Lenia.dict) :
  Lenia.check_numeric float_of_str before args = Py [] (inr (inr args1)) ->
  Lenia.check_numeric float_of_str (before ++ rest) args
  = Lenia.check_numeric float_of_str rest args1.
Proof.
  revert args. induction before as [|arg before IH]; intros args Hrun.
  - simpl in Hrun. by inversion Hrun.
  - rewrite <- app_comm_cons. cbn [Lenia.check_numeric] in *.
    unfold Lenia.getitem in *.
    destruct (args !! arg) as [v|]; [|done].
    rewrite py_bind_ret in *.
    destruct (Lenia.not_None v); [|by apply IH].
    destruct (outcome (Lenia.py_float float_of_str v)) as [e|x].
    + by destruct (Lenia.exn_eqb e ValueError).
    + cbv zeta in *. destruct (f_lt x (of_Z 0)); [done | by apply IH].
Qed.

Lemma py_iter_returns (v : Lenia.value) (items : list Lenia.value) :
  outcome (Lenia.py_iter v) = inr items ->
  Lenia.py_iter v = Py [] (inr items) /\ Lenia.not_None v = true.
Proof. destruct v; simpl; try done; by intros [= ->]. Qed.

Lemma check_peaks_accepts (args : Lenia.dict) (v : Lenia.value)
    (now : option Lenia.value) :
  args !! "kernel_peaks" = Some v -> peaks_cleaned float_of_str v now ->
  exists d, Lenia.check_peaks float_of_str args = Py [] (inr (Lenia.ReturnedArgs d)).
Proof.
  intros Hv Hc. unfold Lenia.check_peaks.
  rewrite (getitem_present _ _ _ Hv), py_bind_ret.
  destruct Hc as [[-> _]|(items & xs & Hiter & Hfloats & Hrange & _)].
  - by eexists.
  - destruct (py_iter_returns v items Hiter) as [-> ->].
    change (Py [] (inr items)) with (mret items : py (list Lenia.value)).
    rewrite py_bind_ret, Hfloats. cbv zeta.
    replace (existsb _ xs) with false; [by eexists|].
    symmetry. apply existsb_false_Forall.
    eapply Forall_impl; [exact Hrange|]. intros x [H0 H1].
    cbv beta. by rewrite H0, H1.
Qed.

(** X27.  The first numeric argument that is not acceptable decides the
    error line, which names it with dashes for underscores.  In the
    dictionary that is left, every argument before it holds [None] where it
    held [None] and otherwise the [float] of its value, and every key that
    is not before it is as it was, except that a value below zero has been
    replaced by its [float], although [-1] is returned; a value that is not
    a number is left as it was. *)
Theorem validate_args_first_refusal (before after : list string) (arg : string)
    (args : Lenia.dict) (v : Lenia.value) :
  Lenia.NUMERIC_ARGS = before ++ arg :: after ->
  (forall k, k ∈ before ->
     exists w now, args !! k = Some w /\ numeric_cleaned float_of_str w now) ->
  args !! arg = Some v -> v <> Lenia.VNone ->
  exists converted,
    (forall k, k ∉ before -> converted !! k = args !! k)
    /\ (forall k, k ∈ before ->
          exists w, args !! k = Some w
                    /\ numeric_cleaned float_of_str w (converted !! k))
    /\ (raises (Lenia.py_float float_of_str v) ValueError ->
          Lenia.validate_args float_of_str args
          = Py ["ERROR: --" +:+ Lenia.dashed arg +:+ " must be a numeric value"]
               (inr (Lenia.ReturnedMinusOne converted)))
    /\ (forall x,
          returns (Lenia.py_float float_of_str v) x -> f_lt x (of_Z 0) = true ->
          Lenia.validate_args float_of_str args
          = Py ["ERROR: --" +:+ Lenia.dashed arg +:+ " must be greater then zero"]
               (inr (Lenia.ReturnedMinusOne (<[arg := Lenia.VNum x]> converted)))).
Proof.
  intros Hnames Hok Hv Hnone.
  assert (Lenia.not_None v = true) as Hnot by (by destruct v).
  pose proof NUMERIC_ARGS_NoDup as Hnd. rewrite Hnames in Hnd.
  apply NoDup_app in Hnd as (Hnd & Hdisj & _).
  destruct (check_numeric_accepts before args Hnd Hok) as (converted & Hrun & Hframe).
  assert (converted !! arg = Some v) as Hv'.
  { rewrite Hframe; [done|]. intros Hin. apply (Hdisj arg Hin). by left. }
  exists converted. split; [exact Hframe|]. split.
  { apply (check_numeric_returned before args converted Hnd). by rewrite Hrun. }
  unfold Lenia.validate_args. rewrite Hnames.
  rewrite (check_numeric_app before (arg :: after) args converted Hrun).
  cbn [Lenia.check_numeric].
  rewrite (getitem_present _ _ _ Hv'), py_bind_ret, Hnot.
  split.
  - intros Hraise. unfold raises in Hraise. by rewrite Hraise.
  - intros x Hx Hneg. unfold returns in Hx. rewrite Hx. cbv zeta. by rewrite Hneg.
Qed.

(** X28.  [validate_args] returns the dictionary, and prints nothing,
    whenever every key of [NUMERIC_ARGS] holds [None] or a value whose
    [float] is not below zero and [kernel_peaks] holds [None] or items
    whose [float]s are all within 0 and 1. *)
Theorem validate_args_accepts (args : Lenia.dict) :
  (forall k, k ∈ Lenia.NUMERIC_ARGS ->
     exists v now, args !! k = Some v /\ numeric_cleaned float_of_str v now) ->
  (exists v now, args !! "kernel_peaks" = Some v
                 /\ peaks_cleaned float_of_str v now) ->
  exists d,
    Lenia.validate_args float_of_str args = Py [] (inr (Lenia.ReturnedArgs d)).
Proof.
  intros Hnum (v & now & Hv & Hpeaks).
  destruct (check_numeric_accepts _ args NUMERIC_ARGS_NoDup Hnum) as (d1 & Hrun & Hframe).
  unfold Lenia.validate_args. rewrite Hrun.
  change (Py [] (inr (inr d1))) with (mret (inr d1) : py (Lenia.dict + Lenia.dict)).
  rewrite py_bind_ret.
  apply (check_peaks_accepts d1 v now); [|done].
  rewrite <- Hv. apply Hframe, kernel_peaks_not_numeric.
Qed.

End ValidateFacts.


Lemma validate_args_idempotent_witness :
  Lenia.validate_args read_number example_args_cleaned
  = Py [] (inr (Lenia.ReturnedArgs example_args_cleaned)).
Proof.
  apply (validate_args_idempotent read_number example_args example_args_cleaned).
  vm_compute. reflexivity.
Defined.

Lemma validate_args_first_refusal_witness :
  exists converted,
    Lenia.validate_args read_number (<["dt" := Lenia.VStr "-1"]> example_args)
    = Py ["ERROR: --dt must be greater then zero"]
         (inr (Lenia.ReturnedMinusOne (<["dt" := Lenia.VNum (of_Z (-1))]> converted))).
Proof.
  destruct (validate_args_first_refusal read_number ["board_size"; "kernel_size"]
              ["frames"; "sigma"; "mu"; "seed"] "dt"
              (<["dt" := Lenia.VStr "-1"]> example_args) (Lenia.VStr "-1"))
    as (converted & _ & _ & _ & Hneg).
  - reflexivity.
  - intros k Hk. apply elem_of_cons in Hk as [->|Hk].
    + exists (Lenia.VStr "64"), (Some (Lenia.VNum (of_Z 64))).
      split; [vm_compute; reflexivity|]. right. by exists (of_Z 64).
    + apply list_elem_of_singleton in Hk as ->.
      exists Lenia.VNone, (Some Lenia.VNone).
      split; [vm_compute; reflexivity|]. by left.
  - vm_compute. reflexivity.
  - discriminate.
  - exists converted. exact (Hneg (of_Z (-1)) eq_refl eq_refl).
Defined.

Lemma validate_args_accepts_witness :
  exists d,
    Lenia.validate_args read_number example_args
    = Py [] (inr (Lenia.ReturnedArgs d)).
Proof.
  apply (validate_args_accepts read_number example_args).
  - intros k Hk. unfold Lenia.NUMERIC_ARGS in Hk.
    repeat (apply elem_of_cons in Hk as [->|Hk]);
      try (exists Lenia.VNone, (Some Lenia.VNone);
           split; [vm_compute; reflexivity | by left]).
    + exists (Lenia.VStr "64"), (Some (Lenia.VNum (of_Z 64))).
      split; [vm_compute; reflexivity|]. right. by exists (of_Z 64).
    + exists (Lenia.VStr "0"), (Some (Lenia.VNum (of_Z 0))).
      split; [vm_compute; reflexivity|]. right. by exists (of_Z 0).
    + exists (Lenia.VStr "nan"), (Some (Lenia.VNum NaN)).
      split; [vm_compute; reflexivity|]. right. by exists NaN.
    + by apply elem_of_nil in Hk.
  - exists (Lenia.VList [Lenia.VStr "1"; Lenia.VStr "0"]),
           (Some (Lenia.VList (Lenia.VNum <$> [of_Z 1; of_Z 0]))).
    split; [vm_compute; reflexivity|]. right.
    exists [Lenia.VStr "1"; Lenia.VStr "0"], [of_Z 1; of_Z 0].
    split; [reflexivity|]. split; [reflexivity|]. split; [|reflexivity].
    repeat constructor.
Defined.
